(** * intercom-swap: argument repair and the swap core

    A shallow embedding of [src/prompt/repair.js] (the argument repair
    applied to tool calls before schema validation) and, for the trade
    state machine and the pre-pay verifier whose sources are not part of
    the tree, a model written from the specification.

    Layout: the JavaScript data model and the runtime functions the
    module calls ([JS]), the repair module itself ([Repair]), the
    specification model of the swap core ([Swap]), then the theorems. *)

From Stdlib Require Import ZArith NArith List Ascii String Lia Bool.
From Stdlib Require Import Floats.SpecFloat DecimalN DecimalPos.
From stdpp Require Import gmap list fin_maps strings.

Set Warnings "-register-all".
Local Open Scope Z_scope.

(* ===================================================================== *)
(** * Part I. Definitions                                                  *)
(* ===================================================================== *)

(** ** The JavaScript values the repair module handles *)

Module JS.

(** A JavaScript string is a sequence of UTF-16 code units. *)
Abbreviation jsstring := (list N).

(** Literals: [str "0.12"] is the string of the code units of its
    ASCII characters. *)
Definition str (s : string) : jsstring :=
  map N_of_ascii (list_ascii_of_string s).

Definition codeEq (a b : N) : bool := N.eqb a b.

Definition UNDERSCORE : N := 95%N.
Definition COMMA : N := 44%N.
Definition DOT : N := 46%N.
Definition PLUS : N := 43%N.
Definition MINUS : N := 45%N.
Definition ZERO : N := 48%N.
Definition LETTER_e : N := 101%N.

(** [[0-9]] *)
Definition isDigit (c : N) : bool := (48 <=? c)%N && (c <=? 57)%N.

(** The code units matched by [\s] and removed by [String.prototype.trim]:
    WhiteSpace and LineTerminator of ECMAScript. *)
Definition isWhiteSpace (c : N) : bool :=
  ((9 <=? c)%N && (c <=? 13)%N)          (* TAB LF VT FF CR *)
  || codeEq c 32                          (* SP *)
  || codeEq c 160                         (* NBSP *)
  || codeEq c 5760                        (* U+1680 *)
  || ((8192 <=? c)%N && (c <=? 8202)%N)   (* U+2000 .. U+200A *)
  || codeEq c 8232 || codeEq c 8233       (* LS PS *)
  || codeEq c 8239 || codeEq c 8287       (* U+202F U+205F *)
  || codeEq c 12288                       (* U+3000 *)
  || codeEq c 65279.                      (* U+FEFF *)

Fixpoint dropWhiteSpace (s : jsstring) : jsstring :=
  match s with
  | c :: s' => if isWhiteSpace c then dropWhiteSpace s' else s
  | [] => []
  end.

(** [s.trim()] *)
Definition trim (s : jsstring) : jsstring :=
  rev (dropWhiteSpace (rev (dropWhiteSpace s))).

(** [s.replaceAll(c, '')] for a one-unit pattern [c]. *)
Fixpoint removeAll (c : N) (s : jsstring) : jsstring :=
  match s with
  | d :: s' => if codeEq d c then removeAll c s' else d :: removeAll c s'
  | [] => []
  end.

(** [s.split(/\s+/)[0]]: the units before the first white space (the
    whole string when there is none, the empty string when [s] starts
    with white space or is empty). *)
Fixpoint splitWhiteSpaceHead (s : jsstring) : jsstring :=
  match s with
  | c :: s' => if isWhiteSpace c then [] else c :: splitWhiteSpaceHead s'
  | [] => []
  end.

(** Truthiness of a string: [!s] holds for the empty string only. *)
Definition isEmpty (s : jsstring) : bool :=
  match s with [] => true | _ => false end.

(** [/^[0-9]+$/.test(s)] *)
Definition testAllDigits (s : jsstring) : bool :=
  negb (isEmpty s) && forallb isDigit s.

Definition startsWith (c : N) (s : jsstring) : bool :=
  match s with d :: _ => codeEq d c | [] => false end.

Definition endsWith (c : N) (s : jsstring) : bool :=
  startsWith c (rev s).

(** The longest prefix of digits and what follows it. *)
Fixpoint spanDigits (s : jsstring) : jsstring * jsstring :=
  match s with
  | c :: s' =>
      if isDigit c then let '(ds, r) := spanDigits s' in (c :: ds, r)
      else ([], s)
  | [] => ([], [])
  end.

(** [s.match(/^([+]?[0-9]+)(?:\.([0-9]+))?$/)]: on a match, capture
    group 1 and capture group 2 ([None] when the optional group did not
    take part, which JavaScript reports as [undefined]). *)
Definition matchDecimal (s : jsstring) : option (jsstring * option jsstring) :=
  let '(sign, body) :=
    match s with
    | c :: s' => if codeEq c PLUS then ([c], s') else ([], s)
    | [] => ([], [])
    end in
  let '(ds, r) := spanDigits body in
  if isEmpty ds then None
  else match r with
       | [] => Some (sign ++ ds, None)
       | c :: r' =>
           if codeEq c DOT && testAllDigits r'
           then Some (sign ++ ds, Some r')
           else None
       end.

(** [m.replace(/^\+/, '')] *)
Definition stripLeadingPlus (s : jsstring) : jsstring :=
  match s with
  | c :: s' => if codeEq c PLUS then s' else s
  | [] => []
  end.

(** *** BigInt *)

(** BigInt values are the integers. [BigInt(s)] is only ever applied to
    a string of decimal digits (capture groups of the pattern above and
    zero padding); on those it is the positional value. *)
Definition digitValue (c : N) : Z := Z.of_N c - 48.

Definition BigInt (s : jsstring) : Z :=
  fold_left (fun acc c => 10 * acc + digitValue c) s 0.

Fixpoint uintCodes (d : Decimal.uint) : jsstring :=
  match d with
  | Decimal.Nil => []
  | Decimal.D0 d' => 48%N :: uintCodes d'
  | Decimal.D1 d' => 49%N :: uintCodes d'
  | Decimal.D2 d' => 50%N :: uintCodes d'
  | Decimal.D3 d' => 51%N :: uintCodes d'
  | Decimal.D4 d' => 52%N :: uintCodes d'
  | Decimal.D5 d' => 53%N :: uintCodes d'
  | Decimal.D6 d' => 54%N :: uintCodes d'
  | Decimal.D7 d' => 55%N :: uintCodes d'
  | Decimal.D8 d' => 56%N :: uintCodes d'
  | Decimal.D9 d' => 57%N :: uintCodes d'
  end.

(** The decimal digits of a natural number, most significant first, no
    leading zero; ["0"] for zero. *)
Definition decimalDigits (n : N) : jsstring := uintCodes (N.to_uint n).

(** [b.toString()] *)
Definition BigInt_toString (b : Z) : jsstring :=
  if b <? 0 then MINUS :: decimalDigits (Z.abs_N b)
  else decimalDigits (Z.to_N b).

(** *** Numbers *)

(** A Number is an IEEE 754 binary64 value: [S754_finite s m e] is
    [(-1)^s * m * 2^e], [S754_zero s] a signed zero. Nothing below needs
    the mantissa to be normalised. *)
Abbreviation number := spec_float.

(** [Number.isFinite(x)] *)
Definition Number_isFinite (x : number) : bool :=
  match x with
  | S754_zero _ | S754_finite _ _ _ => true
  | S754_infinity _ | S754_nan => false
  end.

(** [Number.isInteger(x)] *)
Definition Number_isInteger (x : number) : bool :=
  match x with
  | S754_zero _ => true
  | S754_finite _ m e => (0 <=? e) || (Z.pos m mod 2 ^ (- e) =? 0)
  | S754_infinity _ | S754_nan => false
  end.

(** [x >= 0] (true of both zeros, false of NaN). *)
Definition Number_geZero (x : number) : bool :=
  match x with
  | S754_zero _ => true
  | S754_finite s _ _ | S754_infinity s => negb s
  | S754_nan => false
  end.

(** The integer part of the magnitude [m * 2^e]. *)
Definition magnitudeFloor (m : positive) (e : Z) : Z :=
  if 0 <=? e then Z.pos m * 2 ^ e else Z.pos m / 2 ^ (- e).

(** Equality of the values of two numbers that are not NaN. *)
Definition sameValue (x y : number) : bool :=
  match x, y with
  | S754_zero _, S754_zero _ => true
  | S754_infinity s, S754_infinity t => Bool.eqb s t
  | S754_finite s m e, S754_finite t n f =>
      let b := Z.min e f in
      Bool.eqb s t && (Z.pos m * 2 ^ (e - b) =? Z.pos n * 2 ^ (f - b))
  | _, _ => false
  end.

(** The binary64 value nearest to the integer [y] (ties to even). *)
Definition toBinary64 (y : Z) : number := binary_normalize 53 1024 y 0 false.

(** Step 5 of Number::toString for a positive integral value [X] held
    by [x]: among the decimal numerals [s * 10^p] that convert back to
    [x], one with the fewest significant digits, the closest to [X]
    among those, the even [s] on a tie. [shortestAt] looks at the two
    multiples of [10^p] around [X]. *)
Definition shortestAt (x : number) (X : Z) (p : nat) : option Z :=
  let q := 10 ^ Z.of_nat p in
  let lo := (X / q) * q in
  let hi := lo + q in
  let okLo := (0 <? lo) && sameValue (toBinary64 lo) x in
  let okHi := sameValue (toBinary64 hi) x in
  if okLo && okHi then
    if X - lo <? hi - X then Some lo
    else if hi - X <? X - lo then Some hi
    else if Z.even (lo / q) then Some lo else Some hi
  else if okLo then Some lo
  else if okHi then Some hi
  else None.

Fixpoint shortestFrom (x : number) (X : Z) (p : nat) : Z :=
  match shortestAt x X p with
  | Some y => y
  | None => match p with
            | O => X
            | S p' => shortestFrom x X p'
            end
  end.

Fixpoint dropZeros (s : jsstring) : jsstring :=
  match s with
  | c :: s' => if codeEq c ZERO then dropZeros s' else s
  | [] => []
  end.

(** Steps 6 to 10 of Number::toString for the numeral [y > 0] chosen in
    step 5: plain digits up to 21 of them, exponent notation beyond. *)
Definition formatIntegral (y : Z) : jsstring :=
  let all := decimalDigits (Z.to_N y) in
  let n := length all in
  if (n <=? 21)%nat then all
  else
    let sig := rev (dropZeros (rev all)) in
    let expo := LETTER_e :: PLUS :: decimalDigits (N.of_nat (n - 1)) in
    match sig with
    | [] => all
    | [d] => d :: expo
    | d :: ds => d :: DOT :: ds ++ expo
    end.

(** [String(x)] for a finite number of integral value. The repair
    module converts no other number to a string: [String(value)] is
    guarded by [Number.isInteger], and [toFixed] falls back to it only
    from [10^21] on, where every binary64 value is integral. *)
Definition Number_toString_integral (x : number) : jsstring :=
  match x with
  | S754_zero _ => [ZERO]
  | S754_finite s m e =>
      let X := magnitudeFloor m e in
      let all := decimalDigits (Z.to_N X) in
      (if s then [MINUS] else [])
        ++ formatIntegral (shortestFrom (S754_finite false m e) X (length all))
  | S754_infinity s =>
      (if s then [MINUS] else []) ++ str "Infinity"
  | S754_nan => str "NaN"
  end.

(** [x.toFixed(f)] for a finite [x] and [0 <= f <= 100] (the module
    passes 6 and 9): the integer [n] nearest to [|x| * 10^f], the
    larger one on a tie, printed with [f] digits after the point. *)
Definition Number_toFixed (x : number) (f : nat) : jsstring :=
  match x with
  | S754_finite s m e =>
      let sign := if s then [MINUS] else [] in
      if 10 ^ 21 <=? magnitudeFloor m e
      then sign ++ Number_toString_integral (S754_finite false m e)
      else
        let scaled := Z.pos m * 10 ^ Z.of_nat f in
        let n := if 0 <=? e then scaled * 2 ^ e
                 else (2 * scaled + 2 ^ (- e)) / (2 * 2 ^ (- e)) in
        let ds := decimalDigits (Z.to_N n) in
        let ds := repeat ZERO (S f - length ds) ++ ds in
        let k := length ds in
        sign ++ (if (f =? 0)%nat then ds
                 else firstn (k - f) ds ++ DOT :: skipn (k - f) ds)
  | S754_zero _ =>
      if (f =? 0)%nat then [ZERO] else ZERO :: DOT :: repeat ZERO f
  | _ => Number_toString_integral x
  end.

(** The double nearest to a ratio [a / 2^b], for writing literals. *)
Definition dyadic (a : Z) (b : Z) : number := binary_normalize 53 1024 a (- b) false.

(** *** Values *)

(** The values a tool call's arguments are made of (what [JSON.parse]
    yields, and [undefined]). An object is a finite map from property
    names to values; the module never depends on property order. The
    property names it tests with [in] are not on [Object.prototype], so
    on these objects [k in o] is the presence of an own property. *)
Inductive jsval : Type :=
| JUndefined
| JNull
| JBool (b : bool)
| JNum (x : number)
| JStr (s : jsstring)
| JArr (l : list jsval)
| JObj (o : gmap jsstring jsval).

(** [k in o] *)
Definition hasKey (k : jsstring) (o : gmap jsstring jsval) : bool :=
  bool_decide (is_Some (o !! k)).

(** [o[k]]: [undefined] when the property is missing. *)
Definition getProp (o : gmap jsstring jsval) (k : jsstring) : jsval :=
  default JUndefined (o !! k).

End JS.

(* --------------------------------------------------------------------- *)
(** ** [src/prompt/repair.js]                                             *)
(* --------------------------------------------------------------------- *)

Module Repair.
Import JS.

(** [isObject(v)], as a truth value. *)
Definition isObject (v : jsval) : bool :=
  match v with JObj _ => true | _ => false end.

(** [pow10BigInt(n)]: the loop multiplies [out] by ten [n] times. *)
Fixpoint pow10BigInt_loop (n : nat) (out : Z) : Z :=
  match n with
  | O => out
  | S n' => pow10BigInt_loop n' (out * 10)
  end.

Definition pow10BigInt (n : nat) : Z := pow10BigInt_loop n 1.

(** [decimalToAtomicString] from [let s = value.trim()] on, for a
    string [value]. Every [return value] returns the string this part
    was entered with. *)
Definition decimalStringToAtomic (value : jsstring) (decimals : nat) : jsval :=
  let s := trim value in
  if isEmpty s then JStr value else
  let s := removeAll COMMA (removeAll UNDERSCORE s) in
  let s := splitWhiteSpaceHead s in
  if isEmpty s then JStr value else
  if testAllDigits s then JStr s else
  let s := if startsWith DOT s then ZERO :: s else s in
  let s := if endsWith DOT s then s ++ [ZERO] else s in
  match matchDecimal s with
  | None => JStr value
  | Some (m1, m2) =>
      let intPart := stripLeadingPlus m1 in
      let fracPart := default [] m2 in
      if (decimals <? length fracPart)%nat then JStr value else
      let fracPadded := firstn decimals (fracPart ++ repeat ZERO decimals) in
      let atomic :=
        BigInt (if isEmpty intPart then [ZERO] else intPart) * pow10BigInt decimals
        + BigInt (if isEmpty fracPadded then [ZERO] else fracPadded) in
      if atomic <? 0 then JStr value
      else JStr (BigInt_toString atomic)
  end.

(** [decimalToAtomicString(value, decimals)]. The one recursive call is
    made on the string [value.toFixed(decimals)], so it enters the
    string part directly. *)
Definition decimalToAtomicString (value : jsval) (decimals : nat) : jsval :=
  match value with
  | JNull | JUndefined => value
  | JNum x =>
      if negb (Number_isFinite x) then value
      else if Number_isInteger x && Number_geZero x
      then JStr (Number_toString_integral x)
      else decimalStringToAtomic (Number_toFixed x decimals) decimals
  | JStr s => decimalStringToAtomic s decimals
  | JBool _ | JArr _ | JObj _ => value
  end.

Definition coerceUsdtAtomic (value : jsval) : jsval :=
  decimalToAtomicString value 6.

Definition coerceSolLamports (value : jsval) : jsval :=
  decimalToAtomicString value 9.

Definition offerKeys : list jsstring :=
  [ str "pair"; str "have"; str "want"; str "btc_sats"; str "usdt_amount";
    str "max_platform_fee_bps"; str "max_trade_fee_bps";
    str "max_total_fee_bps"; str "min_sol_refund_window_sec";
    str "max_sol_refund_window_sec" ].

(** The [channel] to [channels] repair at the head of the offer_post
    branch. *)
Definition repairChannel (out : gmap jsstring jsval) : gmap jsstring jsval :=
  match out !! str "channels" with
  | Some (JArr _) => out
  | _ =>
      match out !! str "channel" with
      | Some (JStr c) =>
          if isEmpty (trim c) then out
          else delete (str "channel")
                 (<[str "channels" := JArr [JStr (trim c)]]> out)
      | _ => out
      end
  end.

(** [for (const k of flattened) o[k] = out[k]] *)
Definition copyKeys (out : gmap jsstring jsval) (flattened : list jsstring)
    (o : gmap jsstring jsval) : gmap jsstring jsval :=
  fold_left (fun o k => <[k := getProp out k]> o) flattened o.

(** [for (const k of flattened) if (!(k in merged)) merged[k] = out[k]] *)
Definition mergeMissing (out : gmap jsstring jsval) (flattened : list jsstring)
    (merged : gmap jsstring jsval) : gmap jsstring jsval :=
  fold_left (fun merged k =>
               if hasKey k merged then merged
               else <[k := getProp out k]> merged) flattened merged.

(** [for (const k of flattened) delete out[k]] *)
Definition deleteKeys (flattened : list jsstring) (out : gmap jsstring jsval)
    : gmap jsstring jsval :=
  fold_left (fun out k => delete k out) flattened out.

(** The body of [if (flattened.length > 0) { ... }]. *)
Definition flattenOffers (out : gmap jsstring jsval) (flattened : list jsstring)
    : gmap jsstring jsval :=
  let out :=
    match out !! str "offers" with
    | Some (JArr (JObj first :: rest)) =>
        <[str "offers" := JArr ([JObj (mergeMissing out flattened first)] ++ rest)]> out
    | _ =>
        <[str "offers" := JArr [JObj (copyKeys out flattened ∅)]]> out
    end in
  deleteKeys flattened out.

(** The callback of [out.offers.map(...)]. *)
Definition coerceOffer (o : jsval) : jsval :=
  match o with
  | JObj fields =>
      if hasKey (str "usdt_amount") fields
      then JObj (<[str "usdt_amount" :=
                     coerceUsdtAtomic (getProp fields (str "usdt_amount"))]> fields)
      else o
  | _ => o
  end.

Definition repairOfferPost (args : gmap jsstring jsval) : gmap jsstring jsval :=
  let out := args in
  let out := repairChannel out in
  let flattened := filter (fun k => hasKey k out = true) offerKeys in
  let out := if (0 <? length flattened)%nat then flattenOffers out flattened else out in
  match out !! str "offers" with
  | Some (JArr offers) => <[str "offers" := JArr (map coerceOffer offers)]> out
  | _ => out
  end.

Definition toolIs (toolName : jsstring) (name : string) : bool :=
  bool_decide (toolName = str name).

Definition repairToolArguments (toolName : jsstring) (args : jsval) : jsval :=
  match args with
  | JObj fields =>
      if toolIs toolName "intercomswap_offer_post" then
        JObj (repairOfferPost fields)
      else if toolIs toolName "intercomswap_rfq_post"
              || toolIs toolName "intercomswap_quote_post"
              || toolIs toolName "intercomswap_terms_post" then
        let out := fields in
        JObj (if hasKey (str "usdt_amount") out
              then <[str "usdt_amount" :=
                       coerceUsdtAtomic (getProp out (str "usdt_amount"))]> out
              else out)
      else if toolIs toolName "intercomswap_sol_airdrop"
              || toolIs toolName "intercomswap_sol_transfer_sol" then
        let out := fields in
        JObj (if hasKey (str "lamports") out
              then <[str "lamports" :=
                       coerceSolLamports (getProp out (str "lamports"))]> out
              else out)
      else args
  | _ => args
  end.

(** *** Notions used to state the properties of the coercers *)

(** The first token the coercers look at: [value] trimmed, underscores
    and commas removed, cut at the first white space. *)
Definition strippedToken (value : jsstring) : jsstring :=
  splitWhiteSpaceHead (removeAll COMMA (removeAll UNDERSCORE (trim value))).

(** A non-empty run of the code units of ['0'] to ['9']: what
    [^[0-9]+$] describes. *)
Definition digits (s : jsstring) : Prop :=
  s <> [] /\ Forall (fun c => (48 <= c <= 57)%N) s.

(** No white space. *)
Definition noWhite (s : jsstring) : Prop :=
  Forall (fun c => isWhiteSpace c = false) s.

(** The string is empty or starts with a unit that is not a digit. *)
Definition stopsDigits (r : jsstring) : Prop :=
  match r with c :: _ => isDigit c = false | [] => True end.

(** No white space, underscore or comma. *)
Definition artifactFree (s : jsstring) : Prop :=
  Forall (fun c => isWhiteSpace c = false /\ c <> UNDERSCORE /\ c <> COMMA) s.

(** The numerals the coercers convert: an optional plus sign and
    digits, then possibly a point and digits, where the digits before a
    leading point or after a trailing point may be missing. *)
Inductive acceptedNumeral : jsstring -> Prop :=
| numeral_integer sign ip :
    sign = [] \/ sign = [PLUS] -> digits ip ->
    acceptedNumeral (sign ++ ip)
| numeral_fraction sign ip fp :
    sign = [] \/ sign = [PLUS] -> digits ip -> digits fp ->
    acceptedNumeral (sign ++ ip ++ DOT :: fp)
| numeral_trailing_point sign ip :
    sign = [] \/ sign = [PLUS] -> digits ip ->
    acceptedNumeral (sign ++ ip ++ [DOT])
| numeral_leading_point fp :
    digits fp -> acceptedNumeral (DOT :: fp)
| numeral_point : acceptedNumeral [DOT].

(** What may stand before the point of a decimal string: digits, with
    or without a plus sign before them, or nothing at all. *)
Definition integerPart (sign ip : jsstring) : Prop :=
  ((sign = [] \/ sign = [PLUS]) /\ digits ip) \/ (sign = [] /\ ip = []).

(** A decimal string with more digits after the point than [decimals]. *)
Definition excessFraction (s : jsstring) (decimals : nat) : Prop :=
  exists sign ip fp,
    integerPart sign ip /\ digits fp
    /\ s = sign ++ ip ++ DOT :: fp /\ (decimals < length fp)%nat.

(** A value that is neither a string nor a number. *)
Definition otherValue (v : jsval) : Prop :=
  match v with
  | JStr _ | JNum _ => False
  | _ => True
  end.

(** What a coercer [coerce] with [decimals] decimals returns for [v], by
    the kind of [v]: a string gives itself or a string of digits; a
    number that is not finite gives itself; a finite number gives a
    string that the coercer leaves alone, [String(v)] when the number
    is a non-negative integer and otherwise what the coercer makes of
    [v.toFixed(decimals)] (that string itself or a string of digits);
    any other value gives itself. *)
Definition coercerShape (coerce : jsval -> jsval) (decimals : nat) (v : jsval)
    : Prop :=
  match v with
  | JStr s => coerce v = v \/ exists r, coerce v = JStr r /\ digits r
  | JNum x =>
      if Number_isFinite x then
        exists r,
          coerce v = JStr r
          /\ coerce (JStr r) = JStr r
          /\ if Number_isInteger x && Number_geZero x
             then r = Number_toString_integral x
             else coerce (JStr (Number_toFixed x decimals)) = JStr r
                  /\ (r = Number_toFixed x decimals \/ digits r)
      else coerce v = v
  | _ => coerce v = v
  end.

(** The conversion of a stripped token: [decimalToAtomicString] from
    the [/^[0-9]+$/] test on, [None] where the source returns [value]. *)
Definition convertToken (s : jsstring) (decimals : nat) : option jsstring :=
  if isEmpty s then None else
  if testAllDigits s then Some s else
  let s := if startsWith DOT s then ZERO :: s else s in
  let s := if endsWith DOT s then s ++ [ZERO] else s in
  match matchDecimal s with
  | None => None
  | Some (m1, m2) =>
      let intPart := stripLeadingPlus m1 in
      let fracPart := default [] m2 in
      if (decimals <? length fracPart)%nat then None else
      let fracPadded := firstn decimals (fracPart ++ repeat ZERO decimals) in
      let atomic :=
        BigInt (if isEmpty intPart then [ZERO] else intPart) * pow10BigInt decimals
        + BigInt (if isEmpty fracPadded then [ZERO] else fracPadded) in
      if atomic <? 0 then None
      else Some (BigInt_toString atomic)
  end.

(** The coercion [repairToolArguments] applies to the value of an offer
    key: [usdt_amount] goes through [coerceUsdtAtomic], the other keys
    are left alone. *)
Definition coerceKey (k : jsstring) (v : jsval) : jsval :=
  if bool_decide (k = str "usdt_amount") then coerceUsdtAtomic v else v.

(** The first offer and the remaining ones, when [offers] is an array
    that starts with an object. *)
Definition existingOffers (args : gmap jsstring jsval)
    : option (gmap jsstring jsval * list jsval) :=
  match args !! str "offers" with
  | Some (JArr (JObj first :: rest)) => Some (first, rest)
  | _ => None
  end.

(** The tools whose arguments are repaired. *)
Definition repairedTools : list jsstring :=
  [ str "intercomswap_offer_post"; str "intercomswap_rfq_post";
    str "intercomswap_quote_post"; str "intercomswap_terms_post";
    str "intercomswap_sol_airdrop"; str "intercomswap_sol_transfer_sol" ].

End Repair.

(* --------------------------------------------------------------------- *)
(** ** The swap core: trade state machine and pre-pay verifier            *)
(* --------------------------------------------------------------------- *)

(** [src/swap/stateMachine.js] and [src/swap/verify.js] are not in the
    tree; the end-to-end test only calls [createInitialTrade],
    [applySwapEnvelope] and [verifySwapPrePayOnchain]. The definitions
    of this module follow sections 3, 4.3, 4.4, 4.5 and 7 of the
    specification, except where the end-to-end test contradicts them:
    the test signs TERMS with [sol_refund_after_unix: nowSec + 3600],
    funds and announces the escrow with
    [Math.floor(Date.now() / 1000) + 3600] read from the clock later
    on, and asserts that [applySwapEnvelope] takes the announcement
    (state [ESCROW]) and that [verifySwapPrePayOnchain] answers ok. The
    escrow's refund time is therefore not required to equal the
    negotiated one; how the two are compared is left open
    ([refund_time_ok] below). Atomic amounts are held as integers, times
    as integer seconds, every other field as an opaque string. *)

Module Swap.
Local Open Scope string_scope.
Local Open Scope Z_scope.

(** Modelled from the spec: the data model of sections 3 and 4.3 (the
    states of a trade, the bodies of the envelope kinds, the envelope,
    the trade record and the error kinds of section 7), which the
    missing [src/swap] modules declare. *)
Inductive State :=
| INIT | TERMS | ACCEPTED | INVOICE | ESCROW | LN_PAID | CLAIMED
| CANCELLED | REFUNDED.

Record RfqBody := {
  rfq_pair : string; rfq_direction : string;
  rfq_btc_sats : Z; rfq_usdt_amount : Z; rfq_valid_until_unix : Z }.

Record QuoteBody := {
  quote_rfq_id : string; quote_pair : string; quote_direction : string;
  quote_btc_sats : Z; quote_usdt_amount : Z; quote_valid_until_unix : Z }.

Record SwapInviteBody := {
  inv_rfq_id : string; inv_quote_id : string; inv_swap_channel : string;
  inv_owner_pubkey : string; inv_invite : string; inv_welcome : string }.

Record TermsBody := {
  pair : string; direction : string;
  btc_sats : Z; usdt_amount : Z; usdt_decimals : Z;
  sol_mint : string; sol_recipient : string; sol_refund : string;
  sol_refund_after_unix : Z;
  ln_receiver_peer : string; ln_payer_peer : string;
  terms_valid_until_unix : Z }.

Record InvoiceBody := {
  bolt11 : string; inv_payment_hash_hex : string; amount_msat : Z }.

Record EscrowBody := {
  esc_payment_hash_hex : string; program_id : string; escrow_pda : string;
  vault_ata : string; mint : string; amount : Z; refund_after_unix : Z;
  recipient : string; refund : string; tx_sig : string }.

Record PaidBody := {
  paid_payment_hash_hex : string; preimage_hex : option string }.

Record ClaimedBody := {
  claim_payment_hash_hex : string; claim_escrow_pda : string;
  claim_tx_sig : string }.

(** An envelope's [kind] together with the body of that kind. *)
Inductive Body :=
| RFQ (b : RfqBody)
| QUOTE (b : QuoteBody)
| QUOTE_ACCEPT (rfq_id quote_id : string)
| SWAP_INVITE (b : SwapInviteBody)
| TERMS_ (b : TermsBody)
| ACCEPT (terms_hash : string)
| LN_INVOICE (b : InvoiceBody)
| SOL_ESCROW_CREATED (b : EscrowBody)
| LN_PAID_ (b : PaidBody)
| SOL_CLAIMED (b : ClaimedBody)
| STATUS (state : State) (note : string)
| CANCEL (reason : string).

Record Envelope := {
  env_v : Z; env_trade_id : string; env_body : Body;
  signer_pubkey : string; signature : string }.

Record Trade := {
  trade_id : string;
  state : State;
  terms : option TermsBody;
  invoice : option InvoiceBody;
  escrow : option EscrowBody;
  paid : option PaidBody;
  claim : option ClaimedBody;
  rfq_id : option string;
  quote_id : option string;
  terms_hash : option string;
  pubkeys : list string }.

Inductive Reason :=
| BadSig | SchemaInvalid | UnknownKind | WrongTradeId
| IllegalTransition | MismatchedBinding | DuplicateTerms | StaleExpiry
| AlreadyApplied
| EscrowMissing | EscrowWrongOwner | EscrowAmountMismatch
| EscrowTimeTooTight | PayHashMismatch | VaultUnderfunded.

Inductive result (A : Type) :=
| Ok (a : A)
| Err (r : Reason).
Arguments Ok {A} a.
Arguments Err {A} r.

#[global] Instance State_eq_dec : EqDecision State.
Proof. solve_decision. Defined.
#[global] Instance TermsBody_eq_dec : EqDecision TermsBody.
Proof. solve_decision. Defined.
#[global] Instance InvoiceBody_eq_dec : EqDecision InvoiceBody.
Proof. solve_decision. Defined.
#[global] Instance EscrowBody_eq_dec : EqDecision EscrowBody.
Proof. solve_decision. Defined.
#[global] Instance PaidBody_eq_dec : EqDecision PaidBody.
Proof. solve_decision. Defined.
#[global] Instance ClaimedBody_eq_dec : EqDecision ClaimedBody.
Proof. solve_decision. Defined.

(** What the core takes from its collaborators: the envelope hash over
    the canonical encoding of the unsigned part, signature and schema
    validation, and the derivation of the escrow address from the
    program and the payment hash. The last field is what the tree does
    not settle: [refund_time_ok negotiated funded] tells whether an
    escrow whose time lock ends at [funded] is taken for terms that
    say [negotiated]. *)
Class Primitives := {
  envelope_hash : Z -> string -> Body -> string;
  signature_ok : Envelope -> bool;
  schema_ok : Envelope -> bool;
  derive_pda : string -> string -> string;
  refund_time_ok : Z -> Z -> bool }.

Definition hashUnsignedEnvelope `{Primitives} (e : Envelope) : string :=
  envelope_hash (env_v e) (env_trade_id e) (env_body e).

(** Modelled from the spec: [createInitialTrade] of the missing
    [src/swap/stateMachine.js]; section 4.4, [create_initial(trade_id)]
    gives state [INIT] and no bindings. *)
Definition createInitialTrade (id : string) : Trade :=
  {| trade_id := id; state := INIT;
     terms := None; invoice := None; escrow := None; paid := None;
     claim := None; rfq_id := None; quote_id := None; terms_hash := None;
     pubkeys := [] |}.

Definition terminal (s : State) : bool :=
  match s with
  | CLAIMED | CANCELLED | REFUNDED => true
  | _ => false
  end.

(** A body of that kind is already stored. *)
Definition recorded {A : Type} (o : option A) : bool :=
  match o with Some _ => true | None => false end.

(** The payment hash a trade remembers from its invoice. *)
Definition payment_hash (t : Trade) : option string :=
  inv_payment_hash_hex <$> invoice t.

(** [ACCEPTED] or a state that follows it on the settlement path. *)
Definition accepted (s : State) : bool :=
  match s with
  | ACCEPTED | INVOICE | ESCROW | LN_PAID | CLAIMED => true
  | _ => false
  end.

(** Modelled from the spec: the replay test of the missing
    [applySwapEnvelope] (section 4.4, tie-breaking): the envelope's
    content is what the trade already records for its kind. *)
Definition replayed `{Primitives} (t : Trade) (e : Envelope) : bool :=
  match env_body e with
  | TERMS_ _ => bool_decide (terms_hash t = Some (hashUnsignedEnvelope e))
  | ACCEPT h => accepted (state t) && bool_decide (terms_hash t = Some h)
  | LN_INVOICE b => bool_decide (invoice t = Some b)
  | SOL_ESCROW_CREATED b => bool_decide (escrow t = Some b)
  | LN_PAID_ b => bool_decide (paid t = Some b)
  | SOL_CLAIMED b => bool_decide (claim t = Some b)
  | _ => false
  end.

(** Modelled from the spec: the binding of the [INVOICE] to [ESCROW]
    row, the fields of [SOL_ESCROW_CREATED] that mirror the terms
    (section 3). The refund time is compared by [refund_time_ok], not
    by equality: the end-to-end test announces an escrow whose
    [refund_after_unix] comes from a later clock read than the
    [sol_refund_after_unix] of its terms, and the announcement is
    taken. *)
Definition mirrorsTerms `{Primitives} (b : EscrowBody) (tb : TermsBody) : bool :=
  bool_decide (amount b = usdt_amount tb)
  && bool_decide (mint b = sol_mint tb)
  && bool_decide (recipient b = sol_recipient tb)
  && bool_decide (refund b = sol_refund tb)
  && refund_time_ok (sol_refund_after_unix tb) (refund_after_unix b).

(** Modelled from the spec: the transition table of section 4.4, as
    the missing [applySwapEnvelope] runs it on an envelope that passed
    validation and is not a replay. An envelope of a kind the trade has
    already taken is [DuplicateTerms] or [AlreadyApplied], any other
    combination [IllegalTransition]. *)
Definition transition `{Primitives} (now : Z) (t : Trade) (e : Envelope)
    : result Trade :=
  match env_body e with
  | TERMS_ b =>
      match state t with
      | INIT =>
          if terms_valid_until_unix b <? now then Err StaleExpiry
          else Ok {| trade_id := trade_id t; state := TERMS;
                     terms := Some b; invoice := invoice t;
                     escrow := escrow t; paid := paid t; claim := claim t;
                     rfq_id := rfq_id t; quote_id := quote_id t;
                     terms_hash := Some (hashUnsignedEnvelope e);
                     pubkeys := pubkeys t |}
      | _ => Err DuplicateTerms
      end
  | ACCEPT h =>
      match state t with
      | TERMS =>
          if bool_decide (terms_hash t = Some h)
          then Ok {| trade_id := trade_id t; state := ACCEPTED;
                     terms := terms t; invoice := invoice t;
                     escrow := escrow t; paid := paid t; claim := claim t;
                     rfq_id := rfq_id t; quote_id := quote_id t;
                     terms_hash := terms_hash t; pubkeys := pubkeys t |}
          else Err MismatchedBinding
      | INIT => Err IllegalTransition
      | _ => if accepted (state t) then Err AlreadyApplied
             else Err IllegalTransition
      end
  | LN_INVOICE b =>
      match state t with
      | ACCEPTED =>
          Ok {| trade_id := trade_id t; state := INVOICE;
                terms := terms t; invoice := Some b;
                escrow := escrow t; paid := paid t; claim := claim t;
                rfq_id := rfq_id t; quote_id := quote_id t;
                terms_hash := terms_hash t; pubkeys := pubkeys t |}
      | _ => if recorded (invoice t) then Err AlreadyApplied else Err IllegalTransition
      end
  | SOL_ESCROW_CREATED b =>
      match state t, terms t with
      | INVOICE, Some tb =>
          if bool_decide (Some (esc_payment_hash_hex b) = payment_hash t)
             && mirrorsTerms b tb
          then Ok {| trade_id := trade_id t; state := ESCROW;
                     terms := terms t; invoice := invoice t;
                     escrow := Some b; paid := paid t; claim := claim t;
                     rfq_id := rfq_id t; quote_id := quote_id t;
                     terms_hash := terms_hash t; pubkeys := pubkeys t |}
          else Err MismatchedBinding
      | _, _ => if recorded (escrow t) then Err AlreadyApplied else Err IllegalTransition
      end
  | LN_PAID_ b =>
      match state t with
      | ESCROW =>
          if bool_decide (Some (paid_payment_hash_hex b) = payment_hash t)
          then Ok {| trade_id := trade_id t; state := LN_PAID;
                     terms := terms t; invoice := invoice t;
                     escrow := escrow t; paid := Some b; claim := claim t;
                     rfq_id := rfq_id t; quote_id := quote_id t;
                     terms_hash := terms_hash t; pubkeys := pubkeys t |}
          else Err MismatchedBinding
      | _ => if recorded (paid t) then Err AlreadyApplied else Err IllegalTransition
      end
  | SOL_CLAIMED b =>
      match state t with
      | LN_PAID =>
          if bool_decide (Some (claim_payment_hash_hex b) = payment_hash t)
             && bool_decide (Some (claim_escrow_pda b) = escrow_pda <$> escrow t)
          then Ok {| trade_id := trade_id t; state := CLAIMED;
                     terms := terms t; invoice := invoice t;
                     escrow := escrow t; paid := paid t; claim := Some b;
                     rfq_id := rfq_id t; quote_id := quote_id t;
                     terms_hash := terms_hash t; pubkeys := pubkeys t |}
          else Err MismatchedBinding
      | _ => if recorded (claim t) then Err AlreadyApplied else Err IllegalTransition
      end
  | CANCEL _ =>
      if terminal (state t)
      then (if bool_decide (state t = CANCELLED) then Err AlreadyApplied
            else Err IllegalTransition)
      else Ok {| trade_id := trade_id t; state := CANCELLED;
                 terms := terms t; invoice := invoice t;
                 escrow := escrow t; paid := paid t; claim := claim t;
                 rfq_id := rfq_id t; quote_id := quote_id t;
                 terms_hash := terms_hash t; pubkeys := pubkeys t |}
  | RFQ _ | QUOTE _ | QUOTE_ACCEPT _ _ | SWAP_INVITE _ | STATUS _ _ =>
      Err IllegalTransition
  end.

(** Modelled from the spec: [applySwapEnvelope] of the missing
    [src/swap/stateMachine.js]; section 4.4: validation rejections
    first, a replayed envelope is a success that leaves the trade as it
    is, anything else goes through the transition table. *)
Definition applySwapEnvelope `{Primitives} (now : Z) (t : Trade) (e : Envelope)
    : result Trade :=
  if negb (signature_ok e) then Err BadSig
  else if negb (schema_ok e) then Err SchemaInvalid
  else if negb (bool_decide (env_trade_id e = trade_id t)) then Err WrongTradeId
  else if replayed t e then Ok t
  else transition now t e.

(** The caller's use of the result in the end-to-end test:
    [if (res.ok) trade = res.trade]. *)
Definition applied `{Primitives} (now : Z) (t : Trade) (e : Envelope) : Trade :=
  match applySwapEnvelope now t e with
  | Ok t' => t'
  | Err _ => t
  end.





(** *** The chain, as the verifier reads it *)

Inductive EscrowStatus := FUNDED | ESCROW_CLAIMED | ESCROW_REFUNDED.

(** Modelled from the spec: the chain RPC of section 6 as the missing
    verifier reads it. The parsed state of an escrow account: *)
Record EscrowState := {
  st_status : EscrowStatus; st_amount : Z; st_mint : string;
  st_recipient : string; st_refund : string; st_payment_hash : string;
  st_refund_after_unix : Z }.

(** [get_account]: the owning program and the account data, [None] for
    the data when it does not parse as an escrow state. *)
Record Account := { acc_owner : string; acc_data : option EscrowState }.

(** [get_token_account]: balance, mint and the address the token
    account is associated with. *)
Record TokenAccount := { tok_amount : Z; tok_mint : string; tok_owner : string }.

Record Chain := {
  get_account : string -> option Account;
  get_token_account : string -> option TokenAccount }.

#[global] Instance EscrowStatus_eq_dec : EqDecision EscrowStatus.
Proof. solve_decision. Defined.

(** The maximum time the client attributes to the Lightning payment
    plus the on-chain claim: ten minutes by default. *)
Definition SAFETY_MARGIN : Z := 600.










(** Modelled from the spec: [verifySwapPrePayOnchain] of the missing
    [src/swap/verify.js]; section 4.5, the checks run in order and the
    first failure is reported with the verification error of section 7
    closest to it. The on-chain refund time is compared with the
    negotiated one by [refund_time_ok]: in the end-to-end test the
    escrow is funded with a later refund time than the terms say and
    the verifier answers ok. *)
Definition verifySwapPrePayOnchain `{Primitives} (c : Chain) (margin now : Z)
    (tb : TermsBody) (ib : InvoiceBody) (eb : EscrowBody) : result unit :=
  if negb (bool_decide (inv_payment_hash_hex ib = esc_payment_hash_hex eb))
  then Err PayHashMismatch
  else if negb (bool_decide (escrow_pda eb
                             = derive_pda (program_id eb) (esc_payment_hash_hex eb)))
  then Err EscrowMissing
  else match get_account c (escrow_pda eb) with
  | None => Err EscrowMissing
  | Some acc =>
  if negb (bool_decide (acc_owner acc = program_id eb)) then Err EscrowWrongOwner
  else match acc_data acc with
  | None => Err EscrowMissing
  | Some st =>
  if negb (bool_decide (st_status st = FUNDED)) then Err EscrowMissing
  else if negb (bool_decide (st_amount st = usdt_amount tb))
  then Err EscrowAmountMismatch
  else if negb (bool_decide (st_mint st = sol_mint tb)
                && bool_decide (st_recipient st = sol_recipient tb)
                && bool_decide (st_refund st = sol_refund tb))
  then Err MismatchedBinding
  else if negb (bool_decide (st_payment_hash st = inv_payment_hash_hex ib))
  then Err PayHashMismatch
  else if negb (refund_time_ok (sol_refund_after_unix tb) (st_refund_after_unix st))
  then Err EscrowTimeTooTight
  else if negb (now + margin <? st_refund_after_unix st)
  then Err EscrowTimeTooTight
  else match get_token_account c (vault_ata eb) with
  | None => Err VaultUnderfunded
  | Some vault =>
  if negb (bool_decide (tok_mint vault = st_mint st)
           && bool_decide (tok_owner vault = escrow_pda eb))
  then Err VaultUnderfunded
  else if negb (st_amount st <=? tok_amount vault) then Err VaultUnderfunded
  else if negb (bool_decide (amount_msat ib = btc_sats tb * 1000))
  then Err MismatchedBinding
  else Ok tt
  end end end.

(** Modelled from the spec: what the client does with the verifier's
    answer (sections 4.5 and 7): pay the invoice on success, refuse and
    emit [CANCEL] on a verification error. *)
Inductive ClientAction :=
| Pay (bolt11 : string)
| RefuseAndCancel (r : Reason).

Definition clientPrePay `{Primitives} (c : Chain) (margin now : Z)
    (tb : TermsBody) (ib : InvoiceBody) (eb : EscrowBody) : ClientAction :=
  match verifySwapPrePayOnchain c margin now tb ib eb with
  | Ok _ => Pay (bolt11 ib)
  | Err r => RefuseAndCancel r
  end.



(** *** A worked trade *)

(** An instance of the collaborators and the happy path of the
    specification's first scenario ([t1], 50 000 sat for 100 USDT with
    six decimals, refund one hour after [now = 1000]), used by the
    worked examples. The sample comparison of refund times takes an
    escrow that is not refundable before the negotiated time, which
    covers the escrow of the end-to-end test. *)
Definition sampleDigest (b : Body) : string :=
  match b with
  | TERMS_ tb =>
      String.append "terms/" (String.append (sol_recipient tb)
        (String.append "/" (sol_refund tb)))
  | _ => "body"
  end.

Definition samplePrimitives : Primitives :=
  {| envelope_hash := fun _ id b =>
       String.append id (String.append "/" (sampleDigest b));
     signature_ok := fun _ => true;
     schema_ok := fun _ => true;
     derive_pda := fun prog h => String.append "pda:" h;
     refund_time_ok := fun negotiated funded => negotiated <=? funded |}.

Definition sampleTerms : TermsBody :=
  {| pair := "BTC_LN/USDT_SOL"; direction := "BTC_LN->USDT_SOL";
     btc_sats := 50000; usdt_amount := 100000000; usdt_decimals := 6;
     sol_mint := "mint"; sol_recipient := "client"; sol_refund := "service";
     sol_refund_after_unix := 4600;
     ln_receiver_peer := "alice"; ln_payer_peer := "bob";
     terms_valid_until_unix := 1300 |}.

Definition sampleInvoice : InvoiceBody :=
  {| bolt11 := "lnbcrt500u1"; inv_payment_hash_hex := "ab";
     amount_msat := 50000000 |}.

Definition sampleEscrow : EscrowBody :=
  {| esc_payment_hash_hex := "ab"; program_id := "escrow-program";
     escrow_pda := "pda:ab"; vault_ata := "vault"; mint := "mint";
     amount := 100000000; refund_after_unix := 4600;
     recipient := "client"; refund := "service"; tx_sig := "sig" |}.

Definition sampleEnvelope (b : Body) (signer : string) : Envelope :=
  {| env_v := 1; env_trade_id := "t1"; env_body := b;
     signer_pubkey := signer; signature := "sig" |}.

Definition sampleChain : Chain :=
  {| get_account := fun a =>
       if String.eqb a "pda:ab"
       then Some {| acc_owner := "escrow-program";
                    acc_data := Some {| st_status := FUNDED;
                                        st_amount := 100000000;
                                        st_mint := "mint";
                                        st_recipient := "client";
                                        st_refund := "service";
                                        st_payment_hash := "ab";
                                        st_refund_after_unix := 4600 |} |}
       else None;
     get_token_account := fun a =>
       if String.eqb a "vault"
       then Some {| tok_amount := 100000000; tok_mint := "mint";
                    tok_owner := "pda:ab" |}
       else None |}.





End Swap.

(* --------------------------------------------------------------------- *)
(** ** Further notions about [repairToolArguments]                        *)
(* --------------------------------------------------------------------- *)

Module RepairShape.
Import JS Repair.

(** The guard of the channel repair:
    [!Array.isArray(out.channels) && typeof out.channel === 'string'
     && out.channel.trim()]. *)
Definition channelRepairApplies (out : gmap jsstring jsval) : bool :=
  match out !! str "channels" with
  | Some (JArr _) => false
  | _ =>
      match out !! str "channel" with
      | Some (JStr c) => negb (isEmpty (trim c))
      | _ => false
      end
  end.

(** [offerKeys.filter((k) => k in out)], on the arguments after the
    channel repair. *)
Definition flattenedKeys (args : gmap jsstring jsval) : list jsstring :=
  filter (fun k => hasKey k (repairChannel args) = true) offerKeys.

(** What the final [out.offers.map] makes of the [offers] property. *)
Definition coerceOffers (offers : option jsval) : option jsval :=
  match offers with
  | Some (JArr l) => Some (JArr (map coerceOffer l))
  | _ => offers
  end.

(** The [offers] property just before that map. *)
Definition flattenedOffers (args : gmap jsstring jsval) : option jsval :=
  if (0 <? length (flattenedKeys args))%nat then
    Some (JArr match existingOffers args with
               | Some (first, rest) =>
                   JObj (mergeMissing (repairChannel args) (flattenedKeys args) first)
                   :: rest
               | None =>
                   [JObj (copyKeys (repairChannel args) (flattenedKeys args) ∅)]
               end)
  else args !! str "offers".

(** An amount the schema accepts already: a string of digits. *)
Definition atomicAmount (v : option jsval) : Prop :=
  match v with
  | None => True
  | Some (JStr s) => digits s
  | Some _ => False
  end.

(** An offer whose [usdt_amount], if any, is atomic already (anything
    that is not an object counts, the map leaves it alone). *)
Definition atomicOffer (o : jsval) : Prop :=
  match o with
  | JObj fields => atomicAmount (fields !! str "usdt_amount")
  | _ => True
  end.

(** The integer nearest to [m * 2^e * 10^f], the larger one on a tie. *)
Definition roundedScaled (m : positive) (e : Z) (f : nat) : Z :=
  let scaled := Z.pos m * 10 ^ Z.of_nat f in
  if 0 <=? e then scaled * 2 ^ e
  else (2 * scaled + 2 ^ (- e)) / (2 * 2 ^ (- e)).

End RepairShape.

(* --------------------------------------------------------------------- *)
(** ** Helpers of the end-to-end test                                     *)
(* --------------------------------------------------------------------- *)

(** The pure and the retrying helpers of the end-to-end test
    ([test/e2e], the file that drives the swap): the output tail kept
    for a spawned process, [parseHex32] and [retry]. *)

Module Harness.
Import JS.

(** *** The output tail *)

(** [s.slice(-n)] for [n > 0]: the last [n] code units, all of [s] when
    it is shorter. *)
Definition sliceLast (n : nat) (s : jsstring) : jsstring :=
  skipn (length s - n) s.

(** The [append] closure of [startSolanaValidator] and [spawnPeer]:
    [out += chunk; if (out.length > 20000) out = out.slice(-20000)],
    as a function from the old [out] and the chunk to the new [out]. *)
Definition tailLimit : nat := N.to_nat 20000.

Definition append (out chunk : jsstring) : jsstring :=
  let out := out ++ chunk in
  if (tailLimit <? length out)%nat then sliceLast tailLimit out else out.

(** [out] after the chunks of [chunks] have arrived in order. *)
Definition appendAll (out : jsstring) (chunks : list jsstring) : jsstring :=
  fold_left append chunks out.

(** *** [parseHex32] *)

(** [s.toLowerCase()] on Basic Latin: ['A'..'Z'] become ['a'..'z'].
    Other code units are kept as they are; for [parseHex32] this makes
    no difference, as no code unit outside ['A'..'F'] becomes a
    hexadecimal digit in lower case and the pattern rejects every
    other unit. *)
Definition toLowerCaseUnit (c : N) : N :=
  if (65 <=? c)%N && (c <=? 90)%N then (c + 32)%N else c.

Definition toLowerCase (s : jsstring) : jsstring := map toLowerCaseUnit s.

(** [[0-9a-f]] *)
Definition isLowerHex (c : N) : bool :=
  isDigit c || ((97 <=? c)%N && (c <=? 102)%N).

(** [/^[0-9a-f]{64}$/] *)
Definition matchHex64 (s : jsstring) : bool :=
  (length s =? 64)%nat && forallb isLowerHex s.

(** A call returns or throws; an error is kept as its message. *)
Inductive completion (A : Type) :=
| Return (a : A)
| Throw (message : jsstring).
Arguments Return {A} a.
Arguments Throw {A} message.

(** [parseHex32(value, label)] for a string [value] (the callers pass
    the [payment_hash] and [payment_preimage] strings of the Lightning
    node; on a string, [String(value || '')] is [value]).
    [assert.match] throws with the message given. *)
Definition parseHex32 (value label : jsstring) : completion jsstring :=
  let hex := toLowerCase (trim value) in
  if matchHex64 hex then Return hex
  else Throw (label ++ str " must be 32-byte hex").

(** A hexadecimal digit of either case. *)
Definition isHexDigit (c : N) : Prop :=
  (48 <= c <= 57 \/ 65 <= c <= 70 \/ 97 <= c <= 102)%N.

(** *** [retry] *)

(** An asynchronous function, run to completion on the state of the
    world: it resolves with a value or rejects with an error, and
    leaves the world changed. *)
Inductive outcome (E A : Type) :=
| Resolved (a : A)
| Rejected (e : E).
Arguments Resolved {E A} a.
Arguments Rejected {E A} e.

Section Retry.
Context {World Error Value : Type}.

(** [await new Promise((r) => setTimeout(r, delayMs))] *)
Variable sleep : Z -> World -> World.

(** [lastErr?.message ?? String(lastErr)] for a caught error. *)
Variable errorText : Error -> jsstring.

(** The [for] loop of [retry] with [remaining = tries - i] rounds to
    go: the first resolved call returns, a rejected one is remembered
    in [lastErr] and followed by the delay. The loop ends with
    [lastErr] when the rounds are used up. *)
Fixpoint retryLoop (fn : World -> outcome Error Value * World) (delayMs : Z)
    (remaining : nat) (lastErr : option Error) (w : World)
    : outcome (option Error) Value * World :=
  match remaining with
  | O => (Rejected lastErr, w)
  | S remaining' =>
      match fn w with
      | (Resolved a, w') => (Resolved a, w')
      | (Rejected err, w') =>
          retryLoop fn delayMs remaining' (Some err) (sleep delayMs w')
      end
  end.

(** The message of the error thrown after the loop:
    [`${label} failed after ${tries} tries: ${...}`], where [lastErr]
    is still [null] when no call was made. *)
Definition retryMessage (label : jsstring) (tries : nat) (lastErr : option Error)
    : jsstring :=
  label ++ str " failed after " ++ decimalDigits (N.of_nat tries)
    ++ str " tries: "
    ++ match lastErr with
       | Some err => errorText err
       | None => str "null"
       end.

(** [retry(fn, { tries, delayMs, label })] *)
Definition retry (fn : World -> outcome Error Value * World)
    (tries : nat) (delayMs : Z) (label : jsstring) (w : World)
    : outcome jsstring Value * World :=
  match retryLoop fn delayMs tries None w with
  | (Resolved a, w') => (Resolved a, w')
  | (Rejected lastErr, w') => (Rejected (retryMessage label tries lastErr), w')
  end.

(** The world at the start of round [k], when the rounds before it were
    rejected: each of them ran [fn] and then the delay. *)
Fixpoint worldAtRound (fn : World -> outcome Error Value * World) (delayMs : Z)
    (k : nat) (w : World) : World :=
  match k with
  | O => w
  | S k' => worldAtRound fn delayMs k' (sleep delayMs (snd (fn w)))
  end.

(** Round [k] is rejected, with error [err]. *)
Definition rejectedAt (fn : World -> outcome Error Value * World) (delayMs : Z)
    (w : World) (k : nat) (err : Error) : Prop :=
  fst (fn (worldAtRound fn delayMs k w)) = Rejected err.

End Retry.

(** A sample world for [retry]: the state is the time waited so far, in
    milliseconds; the probed service rejects until [readyAt]
    milliseconds have been waited and then resolves with the time. *)
Definition sampleSleep (delayMs : Z) (w : Z) : Z := w + delayMs.

Definition sampleProbe (readyAt : Z) (w : Z) : outcome jsstring Z * Z :=
  if w <? readyAt then (Rejected (str "not ready"), w) else (Resolved w, w).

End Harness.

(* ===================================================================== *)
(** * Part II. Properties                                                  *)
(* ===================================================================== *)

Module RepairFacts.
Import JS Repair.

(** ** Code units *)


Ltac code_cases :=
  unfold isDigit, isWhiteSpace, codeEq, UNDERSCORE, COMMA, DOT, PLUS, MINUS,
    ZERO, LETTER_e in *;
  repeat match goal with
  | |- context [N.leb ?a ?b] => destruct (N.leb_spec a b)
  | |- context [N.eqb ?a ?b] => destruct (N.eqb_spec a b)
  | H : context [N.leb ?a ?b] |- _ => destruct (N.leb_spec a b)
  | H : context [N.eqb ?a ?b] |- _ => destruct (N.eqb_spec a b)
  end; simpl in *; try congruence; try lia.

Lemma isDigit_range c : isDigit c = true <-> (48 <= c <= 57)%N.
Proof. unfold isDigit. rewrite andb_true_iff, !N.leb_le. tauto. Qed.

Lemma isWhiteSpace_range c :
  isWhiteSpace c = true -> (9 <= c <= 32 \/ 160 <= c)%N.
Proof.
  unfold isWhiteSpace, codeEq.
  rewrite !orb_true_iff, !andb_true_iff, !N.leb_le, !N.eqb_eq. lia.
Qed.

Lemma digits_inv s : digits s -> s <> [] /\ forallb isDigit s = true.
Proof.
  intros [Hne Hall]. split; [exact Hne|].
  apply forallb_forall. rewrite List.Forall_forall in Hall.
  intros c Hc. apply isDigit_range. auto.
Qed.

Lemma digits_intro s : s <> [] -> forallb isDigit s = true -> digits s.
Proof.
  intros Hne Hall. split; [exact Hne|].
  rewrite forallb_forall in Hall. apply List.Forall_forall.
  intros c Hc. apply isDigit_range. auto.
Qed.

(** [digits] is what the pattern test of the source decides. *)
Lemma digits_test s : digits s <-> testAllDigits s = true.
Proof.
  unfold testAllDigits. rewrite andb_true_iff. split.
  - intros H. destruct (digits_inv s H) as [Hne Hall]. split; [|exact Hall].
    destruct s; [contradiction | reflexivity].
  - intros [Hne Hall]. apply digits_intro; [|exact Hall].
    intros ->. discriminate.
Qed.

Lemma isDigit_not_white c : isDigit c = true -> isWhiteSpace c = false.
Proof.
  intros H. apply isDigit_range in H.
  destruct (isWhiteSpace c) eqn:E; [|reflexivity].
  apply isWhiteSpace_range in E. lia.
Qed.

Lemma isDigit_codes c :
  isDigit c = true ->
  c <> UNDERSCORE /\ c <> COMMA /\ c <> DOT /\ c <> PLUS /\ c <> MINUS /\ c <> LETTER_e.
Proof. intros H. repeat split; intros ->; discriminate H. Qed.


Lemma dropWhiteSpace_noWhite s : noWhite s -> dropWhiteSpace s = s.
Proof. destruct 1 as [|c s Hc _]; simpl; [easy | now rewrite Hc]. Qed.

Lemma noWhite_rev s : noWhite s -> noWhite (rev s).
Proof. apply List.Forall_rev. Qed.

Lemma trim_noWhite s : noWhite s -> trim s = s.
Proof.
  intros H. unfold trim. rewrite (dropWhiteSpace_noWhite s H).
  rewrite (dropWhiteSpace_noWhite _ (noWhite_rev s H)). apply rev_involutive.
Qed.

Lemma removeAll_app c a b : removeAll c (a ++ b) = removeAll c a ++ removeAll c b.
Proof. induction a as [|d a IH]; simpl; [easy|]. destruct (codeEq d c); simpl; now rewrite IH. Qed.

Lemma removeAll_absent c s : Forall (fun d => d <> c) s -> removeAll c s = s.
Proof.
  induction 1 as [|d s Hd _ IH]; simpl; [easy|].
  unfold codeEq. destruct (N.eqb_spec d c); [contradiction | now rewrite IH].
Qed.

Lemma removeAll_noWhite c s : noWhite s -> noWhite (removeAll c s).
Proof.
  induction 1 as [|d s Hd _ IH]; simpl; [constructor|].
  destruct (codeEq d c); [exact IH | now constructor].
Qed.

Lemma removeAll_free c s : Forall (fun d => d <> c) (removeAll c s).
Proof.
  induction s as [|d s IH]; simpl; [constructor|].
  unfold codeEq. destruct (N.eqb_spec d c); [exact IH | now constructor].
Qed.

Lemma removeAll_Forall (P : N -> Prop) c s : Forall P s -> Forall P (removeAll c s).
Proof.
  induction 1 as [|d s Hd _ IH]; simpl; [constructor|].
  destruct (codeEq d c); [exact IH | now constructor].
Qed.

Lemma splitWhiteSpaceHead_noWhite s : noWhite s -> splitWhiteSpaceHead s = s.
Proof. induction 1 as [|c s Hc _ IH]; simpl; [easy|]. now rewrite Hc, IH. Qed.

Lemma splitWhiteSpaceHead_is_noWhite s : noWhite (splitWhiteSpaceHead s).
Proof.
  induction s as [|c s IH]; simpl; [constructor|].
  destruct (isWhiteSpace c) eqn:E; [constructor | now constructor].
Qed.

Lemma splitWhiteSpaceHead_Forall (P : N -> Prop) s : Forall P s -> Forall P (splitWhiteSpaceHead s).
Proof.
  induction 1 as [|c s Hc _ IH]; simpl; [constructor|].
  destruct (isWhiteSpace c); [constructor | now constructor].
Qed.

Lemma splitWhiteSpaceHead_cut x t :
  noWhite x -> (t = [] \/ exists w u, t = w :: u /\ isWhiteSpace w = true) ->
  splitWhiteSpaceHead (x ++ t) = x.
Proof.
  intros Hx Ht. induction Hx as [|c x Hc _ IH]; simpl.
  - destruct Ht as [-> | (w & u & -> & Hw)]; simpl; [easy | now rewrite Hw].
  - now rewrite Hc, IH.
Qed.

Lemma artifactFree_noWhite s : artifactFree s -> noWhite s.
Proof. unfold artifactFree, noWhite. apply List.Forall_impl. now intros c [H _]. Qed.

Lemma strippedToken_artifactFree s : artifactFree s -> strippedToken s = s.
Proof.
  intros H. unfold strippedToken.
  rewrite (trim_noWhite s (artifactFree_noWhite s H)).
  rewrite (removeAll_absent UNDERSCORE s).
  2:{ revert H. apply List.Forall_impl. now intros c (_ & ? & _). }
  rewrite (removeAll_absent COMMA s).
  2:{ revert H. apply List.Forall_impl. now intros c (_ & _ & ?). }
  apply splitWhiteSpaceHead_noWhite, artifactFree_noWhite, H.
Qed.

(** The token never holds an artifact. *)
Lemma strippedToken_is_artifactFree v : artifactFree (strippedToken v).
Proof.
  unfold strippedToken, artifactFree.
  set (s := trim v). clearbody s.
  pose proof (removeAll_free COMMA (removeAll UNDERSCORE s)) as Hc.
  pose proof (removeAll_Forall (fun d => d <> UNDERSCORE) COMMA _ (removeAll_free UNDERSCORE s)) as Hu.
  set (r := removeAll COMMA (removeAll UNDERSCORE s)) in *. clearbody r.
  pose proof (splitWhiteSpaceHead_is_noWhite r) as Hw.
  pose proof (splitWhiteSpaceHead_Forall _ r Hc) as Hc'.
  pose proof (splitWhiteSpaceHead_Forall _ r Hu) as Hu'.
  unfold noWhite in Hw. rewrite List.Forall_forall in *. intros c Hin. auto.
Qed.

(** What trimming leaves of a string that starts with a token. *)
Lemma dropWhiteSpace_keeps a c b :
  isWhiteSpace c = false ->
  exists p a', a = p ++ a' /\ dropWhiteSpace (a ++ c :: b) = a' ++ c :: b.
Proof.
  intros Hc. induction a as [|d a IH]; simpl.
  - exists [], []. simpl. now rewrite Hc.
  - destruct (isWhiteSpace d) eqn:Hd.
    + destruct IH as (p & a' & -> & ->). now exists (d :: p), a'.
    + now exists [], (d :: a).
Qed.

Lemma trim_token_prefix x t :
  x <> [] -> noWhite x ->
  exists t', trim (x ++ t) = x ++ t' /\ exists q, t = t' ++ q.
Proof.
  intros Hne Hx.
  destruct (exists_last Hne) as (x0 & cl & ->).
  assert (Hcl : isWhiteSpace cl = false).
  { unfold noWhite in Hx. rewrite List.Forall_forall in Hx. apply Hx, in_or_app. right. now left. }
  unfold trim.
  assert (Hd : dropWhiteSpace ((x0 ++ [cl]) ++ t) = (x0 ++ [cl]) ++ t).
  { destruct x0 as [|c0 x0]; simpl.
    - now rewrite Hcl.
    - assert (isWhiteSpace c0 = false) as ->; [|easy].
      unfold noWhite in Hx. rewrite List.Forall_forall in Hx. apply Hx. now left. }
  rewrite Hd. rewrite rev_app_distr, rev_app_distr. simpl.
  destruct (dropWhiteSpace_keeps (rev t) cl (rev x0) Hcl) as (p & a' & Hp & ->).
  rewrite rev_app_distr. simpl. rewrite rev_involutive.
  exists (rev a'). split.
  - now rewrite <- app_assoc.
  - exists (rev p). rewrite <- rev_app_distr, <- Hp. now rewrite rev_involutive.
Qed.

Lemma strippedToken_suffix x w u :
  x <> [] -> noWhite x -> isWhiteSpace w = true ->
  strippedToken (x ++ w :: u) = removeAll COMMA (removeAll UNDERSCORE x).
Proof.
  intros Hne Hx Hw. unfold strippedToken.
  destruct (trim_token_prefix x (w :: u) Hne Hx) as (t' & -> & q & Hq).
  rewrite !removeAll_app.
  apply splitWhiteSpaceHead_cut.
  - now apply removeAll_noWhite, removeAll_noWhite.
  - destruct t' as [|w' t']; [now left|]. right.
    injection Hq as <- _.
    assert (w <> UNDERSCORE /\ w <> COMMA) as [H1 H2].
    { split; intros ->; discriminate Hw. }
    simpl. unfold codeEq. destruct (N.eqb_spec w UNDERSCORE); [contradiction|]. simpl.
    unfold codeEq. destruct (N.eqb_spec w COMMA); [contradiction|]. eauto.
Qed.

Lemma strippedToken_noWhite x :
  noWhite x -> strippedToken x = removeAll COMMA (removeAll UNDERSCORE x).
Proof.
  intros Hx. unfold strippedToken. rewrite (trim_noWhite x Hx).
  now apply splitWhiteSpaceHead_noWhite, removeAll_noWhite, removeAll_noWhite.
Qed.

Lemma decimalStringToAtomic_token v d :
  decimalStringToAtomic v d =
  match convertToken (strippedToken v) d with
  | Some r => JStr r
  | None => JStr v
  end.
Proof.
  unfold decimalStringToAtomic, convertToken, strippedToken.
  destruct (isEmpty (trim v)) eqn:E.
  - destruct (trim v); [simpl; reflexivity | discriminate].
  - repeat case_match; reflexivity.
Qed.

(** ** BigInt and decimal digits *)



Lemma BigInt_fold s acc :
  fold_left (fun acc c => 10 * acc + digitValue c) s acc
  = acc * 10 ^ Z.of_nat (length s) + BigInt s.
Proof.
  unfold BigInt. revert acc. induction s as [|c s IH]; intros acc.
  - simpl. lia.
  - cbn [fold_left length]. rewrite IH, (IH (10 * 0 + digitValue c)).
    rewrite Nat2Z.inj_succ, Z.pow_succ_r by lia. ring.
Qed.

Lemma BigInt_app a b : BigInt (a ++ b) = BigInt a * 10 ^ Z.of_nat (length b) + BigInt b.
Proof. unfold BigInt at 1. rewrite fold_left_app. fold (BigInt a). apply BigInt_fold. Qed.

Lemma BigInt_zeros k : BigInt (repeat ZERO k) = 0.
Proof.
  induction k as [|k IH]; [reflexivity|].
  change (repeat ZERO (S k)) with ([ZERO] ++ repeat ZERO k).
  rewrite BigInt_app, IH. reflexivity.
Qed.

Lemma BigInt_nonneg s : forallb isDigit s = true -> 0 <= BigInt s.
Proof.
  induction s as [|c s IH] using rev_ind; intros H; [unfold BigInt; simpl; lia|].
  rewrite forallb_app in H. apply andb_true_iff in H as [Hs Hc].
  simpl in Hc. rewrite andb_true_r in Hc.
  rewrite BigInt_app. specialize (IH Hs).
  assert (0 <= BigInt [c]).
  { unfold BigInt, digitValue. simpl. unfold isDigit in Hc.
    apply andb_true_iff in Hc as [H1 _]. apply N.leb_le in H1. lia. }
  simpl. lia.
Qed.

Lemma pow10BigInt_loop_spec n out : pow10BigInt_loop n out = out * 10 ^ Z.of_nat n.
Proof.
  revert out. induction n as [|n IH]; intros out.
  - simpl. lia.
  - cbn [pow10BigInt_loop]. rewrite IH, Nat2Z.inj_succ, Z.pow_succ_r by lia. ring.
Qed.

Lemma pow10BigInt_spec n : pow10BigInt n = 10 ^ Z.of_nat n.
Proof. unfold pow10BigInt. rewrite pow10BigInt_loop_spec. lia. Qed.

Lemma uintCodes_digits d : forallb isDigit (uintCodes d) = true.
Proof. induction d; simpl; auto. Qed.

Lemma uintCodes_nonempty d : d <> Decimal.Nil -> isEmpty (uintCodes d) = false.
Proof. destruct d; simpl; congruence. Qed.

Lemma decimalDigits_digits n : digits (decimalDigits n).
Proof.
  apply digits_test. unfold testAllDigits, decimalDigits.
  rewrite uintCodes_digits, andb_true_r.
  rewrite uintCodes_nonempty; [reflexivity|].
  destruct n as [|p]; simpl; [discriminate | apply Unsigned.to_uint_nonnil].
Qed.

Lemma of_uint_acc_fold d acc :
  Z.pos (Pos.of_uint_acc d acc)
  = fold_left (fun acc c => 10 * acc + digitValue c) (uintCodes d) (Z.pos acc).
Proof.
  revert acc. induction d; intros acc; cbn [Pos.of_uint_acc uintCodes fold_left];
    try rewrite IHd; try reflexivity; f_equal; unfold digitValue; lia.
Qed.

Lemma of_uint_fold d :
  Z.of_N (Pos.of_uint d)
  = fold_left (fun acc c => 10 * acc + digitValue c) (uintCodes d) 0.
Proof.
  induction d; cbn [Pos.of_uint uintCodes fold_left]; try exact IHd; try reflexivity;
    cbn [Z.of_N]; rewrite of_uint_acc_fold; f_equal.
Qed.

Lemma BigInt_decimalDigits n : BigInt (decimalDigits n) = Z.of_N n.
Proof.
  unfold BigInt, decimalDigits. rewrite <- of_uint_fold.
  change (Pos.of_uint (N.to_uint n)) with (N.of_uint (N.to_uint n)).
  now rewrite DecimalN.Unsigned.of_to.
Qed.

Lemma BigInt_toString_nonneg b :
  0 <= b -> digits (BigInt_toString b) /\ BigInt (BigInt_toString b) = b.
Proof.
  intros Hb. unfold BigInt_toString.
  destruct (Z.ltb_spec b 0); [lia|].
  split; [apply decimalDigits_digits|].
  rewrite BigInt_decimalDigits. lia.
Qed.

(** ** The decimal pattern *)

Lemma spanDigits_spec s ds r :
  spanDigits s = (ds, r) ->
  s = ds ++ r /\ forallb isDigit ds = true /\ stopsDigits r.
Proof.
  revert ds r. induction s as [|c s IH]; intros ds r; simpl.
  - intros [= <- <-]. now repeat split.
  - destruct (isDigit c) eqn:Hc.
    + destruct (spanDigits s) as [ds' r'] eqn:E. intros [= <- <-].
      destruct (IH ds' r' eq_refl) as (-> & Hd & Hr).
      repeat split; [simpl; now rewrite Hc, Hd | exact Hr].
    + intros [= <- <-]. repeat split. exact Hc.
Qed.

Lemma spanDigits_app ds r :
  forallb isDigit ds = true -> stopsDigits r -> spanDigits (ds ++ r) = (ds, r).
Proof.
  intros Hd Hr. induction ds as [|c ds IH]; simpl in *.
  - destruct r as [|c r]; simpl in *; [reflexivity | now rewrite Hr].
  - apply andb_true_iff in Hd as [Hc Hd]. now rewrite Hc, IH.
Qed.

Lemma matchDecimal_sound s m1 m2 :
  matchDecimal s = Some (m1, m2) ->
  exists sign ip,
    (sign = [] \/ sign = [PLUS]) /\ digits ip /\ m1 = sign ++ ip
    /\ match m2 with
       | None => s = sign ++ ip
       | Some fp => digits fp /\ s = sign ++ ip ++ DOT :: fp
       end.
Proof.
  unfold matchDecimal.
  set (sb := match s with [] => _ | _ => _ end).
  assert (Hsb : exists sign, (sign = [] \/ sign = [PLUS]) /\ s = sign ++ snd sb /\ fst sb = sign).
  { subst sb. destruct s as [|c s]; [exists []; auto|].
    unfold codeEq. destruct (N.eqb_spec c PLUS) as [-> | _]; simpl.
    - exists [PLUS]. auto.
    - exists []. auto. }
  destruct sb as [sign body]. simpl in Hsb. destruct Hsb as (sg & Hsg & -> & ->).
  destruct (spanDigits body) as [ds r] eqn:E.
  apply spanDigits_spec in E as (-> & Hd & Hr).
  destruct (isEmpty ds) eqn:Hds; [discriminate|].
  assert (Hdig : digits ds).
  { apply digits_intro; [|exact Hd]. intros ->. discriminate. }
  destruct r as [|c r'].
  - intros [= <- <-]. exists sg, ds. rewrite app_nil_r. auto.
  - destruct (codeEq c DOT && testAllDigits r') eqn:Hc; [|discriminate].
    apply andb_true_iff in Hc as [Hc Hfp]. unfold codeEq in Hc. apply N.eqb_eq in Hc as ->.
    apply digits_test in Hfp.
    intros [= <- <-]. exists sg, ds. auto.
Qed.

Lemma digits_head_digit s : digits s -> exists c s', s = c :: s' /\ isDigit c = true.
Proof.
  intros H. apply digits_inv in H as [Hne Hall].
  destruct s as [|c s']; [contradiction|]. simpl in Hall.
  apply andb_true_iff in Hall as [Hc _]. eauto.
Qed.

Lemma matchDecimal_fraction sign ip fp :
  (sign = [] \/ sign = [PLUS]) -> digits ip -> digits fp ->
  matchDecimal (sign ++ ip ++ DOT :: fp) = Some (sign ++ ip, Some fp).
Proof.
  intros Hs Hip Hfp. unfold matchDecimal.
  destruct (digits_head_digit ip Hip) as (c & ip' & Eip & Hc).
  destruct (digits_inv ip Hip) as [_ Hall].
  assert (Hspan : spanDigits (ip ++ DOT :: fp) = (ip, DOT :: fp)).
  { apply spanDigits_app; [exact Hall | reflexivity]. }
  assert (Hplus : codeEq c PLUS = false) by (clear -Hc; code_cases).
  assert (Hne : isEmpty ip = false) by (now subst ip).
  apply digits_test in Hfp.
  destruct Hs as [-> | ->].
  - replace ([] ++ ip ++ DOT :: fp) with (c :: (ip' ++ DOT :: fp)) by now subst ip.
    cbv beta iota. rewrite Hplus.
    replace (c :: ip' ++ DOT :: fp) with (ip ++ DOT :: fp) by now subst ip.
    rewrite Hspan, Hne. change (codeEq DOT DOT) with true. now rewrite Hfp.
  - change ([PLUS] ++ ip ++ DOT :: fp) with (PLUS :: (ip ++ DOT :: fp)).
    cbv beta iota. change (codeEq PLUS PLUS) with true. cbv beta iota.
    rewrite Hspan, Hne. change (codeEq DOT DOT) with true. now rewrite Hfp.
Qed.

(** ** Strings: integer strings and decimal strings *)

Lemma digits_artifactFree s : forallb isDigit s = true -> artifactFree s.
Proof.
  unfold artifactFree. rewrite forallb_forall, List.Forall_forall.
  intros H c Hc. specialize (H c Hc).
  pose proof (isDigit_not_white c H). pose proof (isDigit_codes c H). tauto.
Qed.

Lemma convertToken_digits s d : digits s -> convertToken s d = Some s.
Proof.
  intros H. unfold convertToken. destruct (digits_inv s H) as [Hne _].
  destruct s; [contradiction|]. simpl isEmpty. cbv iota.
  apply digits_test in H. now rewrite H.
Qed.

Lemma decimalStringToAtomic_digits s d : digits s -> decimalStringToAtomic s d = JStr s.
Proof.
  intros H. rewrite decimalStringToAtomic_token.
  rewrite (strippedToken_artifactFree s).
  - now rewrite convertToken_digits.
  - apply digits_artifactFree. now destruct (digits_inv s H).
Qed.

(** C5. A string made of decimal digits only is returned as it is by
    both coercers. *)
Theorem integer_strings_pass_through (s : jsstring) :
  digits s ->
  coerceUsdtAtomic (JStr s) = JStr s /\ coerceSolLamports (JStr s) = JStr s.
Proof.
  intros H. unfold coerceUsdtAtomic, coerceSolLamports, decimalToAtomicString.
  now rewrite !decimalStringToAtomic_digits.
Qed.

Lemma integer_strings_pass_through_witness :
  digits (str "120000")
  /\ coerceUsdtAtomic (JStr (str "120000")) = JStr (str "120000")
  /\ coerceSolLamports (JStr (str "120000")) = JStr (str "120000").
Proof.
  assert (H : digits (str "120000")) by now apply digits_test.
  split; [exact H|].
  exact (integer_strings_pass_through (str "120000") H).
Defined.

Lemma fraction_artifactFree ip fp :
  digits ip -> digits fp -> artifactFree (ip ++ DOT :: fp).
Proof.
  intros Hip Hfp. apply Forall_app. split.
  - apply digits_artifactFree. now destruct (digits_inv ip Hip).
  - constructor.
    + split; [reflexivity | split; discriminate].
    + apply digits_artifactFree. now destruct (digits_inv fp Hfp).
Qed.

Lemma fraction_not_digits a b : testAllDigits (a ++ DOT :: b) = false.
Proof.
  unfold testAllDigits. rewrite forallb_app. simpl.
  now rewrite andb_false_r, andb_false_r.
Qed.

Lemma digits_last_digit s : digits s -> exists s' c, s = s' ++ [c] /\ isDigit c = true.
Proof.
  intros H. destruct (digits_inv s H) as [Hne Hall].
  destruct (exists_last Hne) as (s' & c & ->). exists s', c. split; [reflexivity|].
  rewrite forallb_app in Hall. apply andb_true_iff in Hall as [_ Hc].
  simpl in Hc. now rewrite andb_true_r in Hc.
Qed.

Lemma endsWith_last s c x : endsWith x (s ++ [c]) = codeEq c x.
Proof. unfold endsWith. now rewrite rev_app_distr. Qed.

Lemma firstn_zeros k n : (k <= n)%nat -> firstn k (repeat ZERO n) = repeat ZERO k.
Proof.
  revert n. induction k as [|k IH]; intros n H; [reflexivity|].
  destruct n as [|n]; [lia|]. simpl. f_equal. apply IH. lia.
Qed.

Lemma firstn_padded (fp : jsstring) d :
  (length fp <= d)%nat ->
  firstn d (fp ++ repeat ZERO d) = fp ++ repeat ZERO (d - length fp).
Proof.
  intros H. rewrite firstn_app. rewrite firstn_all2 by lia.
  f_equal. apply firstn_zeros. lia.
Qed.

Lemma convertToken_fraction sign ip fp d :
  (sign = [] \/ sign = [PLUS]) -> digits ip -> digits fp ->
  convertToken (sign ++ ip ++ DOT :: fp) d =
    if (d <? length fp)%nat then None
    else Some (BigInt_toString
                 (BigInt ip * 10 ^ Z.of_nat d
                  + BigInt fp * 10 ^ Z.of_nat (d - length fp))).
Proof.
  intros Hs Hip Hfp. unfold convertToken.
  destruct (digits_head_digit ip Hip) as (c & ip' & Eip & Hc).
  destruct (digits_last_digit fp Hfp) as (fp' & cl & Efp & Hcl).
  assert (Hne : isEmpty (sign ++ ip ++ DOT :: fp) = false).
  { destruct Hs as [-> | ->]; subst ip; reflexivity. }
  assert (Hnd : testAllDigits (sign ++ ip ++ DOT :: fp) = false).
  { rewrite app_assoc. apply fraction_not_digits. }
  assert (Hsw : startsWith DOT (sign ++ ip ++ DOT :: fp) = false).
  { destruct Hs as [-> | ->]; subst ip; simpl; [|reflexivity]. clear -Hc. code_cases. }
  assert (Hew : endsWith DOT (sign ++ ip ++ DOT :: fp) = false).
  { subst fp. replace (sign ++ ip ++ DOT :: fp' ++ [cl])
      with ((sign ++ ip ++ DOT :: fp') ++ [cl]) by now rewrite <- !app_assoc.
    rewrite endsWith_last. clear -Hcl. code_cases. }
  rewrite Hne, Hnd, Hsw, Hew.
  rewrite (matchDecimal_fraction sign ip fp Hs Hip Hfp).
  change (default [] (Some fp)) with fp.
  destruct (d <? length fp)%nat eqn:Hlen; [reflexivity|].
  apply Nat.ltb_ge in Hlen.
  assert (Hint : stripLeadingPlus (sign ++ ip) = ip).
  { destruct Hs as [-> | ->]; [|reflexivity]. subst ip. simpl.
    assert (codeEq c PLUS = false) as -> by (clear -Hc; code_cases). reflexivity. }
  rewrite Hint, (firstn_padded fp d Hlen).
  assert (isEmpty ip = false) as -> by now subst ip.
  assert (isEmpty (fp ++ repeat ZERO (d - length fp)) = false) as ->.
  { rewrite Efp. now destruct fp'. }
  rewrite pow10BigInt_spec, BigInt_app, BigInt_zeros, repeat_length, Z.add_0_r.
  destruct (digits_inv ip Hip) as [_ Hai]. destruct (digits_inv fp Hfp) as [_ Haf].
  pose proof (BigInt_nonneg ip Hai). pose proof (BigInt_nonneg fp Haf).
  assert (0 <= BigInt ip * 10 ^ Z.of_nat d + BigInt fp * 10 ^ Z.of_nat (d - length fp)) by nia.
  destruct (Z.ltb_spec (BigInt ip * 10 ^ Z.of_nat d + BigInt fp * 10 ^ Z.of_nat (d - length fp)) 0);
    [lia | reflexivity].
Qed.

Lemma convertToken_leading_point fp d :
  digits fp -> convertToken (DOT :: fp) d = convertToken (ZERO :: DOT :: fp) d.
Proof.
  intros Hfp. unfold convertToken.
  destruct (digits_last_digit fp Hfp) as (fp' & cl & Efp & Hcl).
  assert (Hew : endsWith DOT (ZERO :: DOT :: fp) = false).
  { subst fp. change (ZERO :: DOT :: fp' ++ [cl]) with ((ZERO :: DOT :: fp') ++ [cl]).
    rewrite endsWith_last. clear -Hcl. code_cases. }
  cbn [isEmpty]. change (testAllDigits (DOT :: fp)) with false.
  change (startsWith DOT (DOT :: fp)) with true.
  change (startsWith DOT (ZERO :: DOT :: fp)) with false.
  replace (testAllDigits (ZERO :: DOT :: fp)) with false
    by (symmetry; apply (fraction_not_digits [ZERO] fp)).
  cbv iota. rewrite Hew. reflexivity.
Qed.

(** The conversion of a decimal string, whatever stands before the
    point. *)
Lemma convertToken_decimal sign ip fp d :
  integerPart sign ip -> digits fp ->
  convertToken (sign ++ ip ++ DOT :: fp) d =
    if (d <? length fp)%nat then None
    else Some (BigInt_toString
                 (BigInt ip * 10 ^ Z.of_nat d
                  + BigInt fp * 10 ^ Z.of_nat (d - length fp))).
Proof.
  intros [[Hs Hip] | [-> ->]] Hfp.
  - now apply convertToken_fraction.
  - cbn [app]. rewrite (convertToken_leading_point fp d Hfp).
    assert (H0 : digits [ZERO]) by now apply digits_test.
    exact (convertToken_fraction [] [ZERO] fp d (or_introl eq_refl) H0 Hfp).
Qed.

Lemma decimal_artifactFree sign ip fp :
  integerPart sign ip -> digits fp -> artifactFree (sign ++ ip ++ DOT :: fp).
Proof.
  intros [[Hs Hip] | [-> ->]] Hfp.
  - apply Forall_app. split; [|now apply fraction_artifactFree].
    destruct Hs as [-> | ->]; [constructor|].
    constructor; [|constructor]. split; [reflexivity | split; discriminate].
  - cbn [app]. constructor.
    + split; [reflexivity | split; discriminate].
    + apply digits_artifactFree. now destruct (digits_inv fp Hfp).
Qed.

(** C4. A decimal string [ip.fp] (digits, a point, digits; a plus sign
    may come first, and the digits before the point may be missing)
    with at most [decimals] digits after the point is converted to the
    decimal string of the integer [ip.fp * 10^decimals], in exact
    integer arithmetic: the result is the digit string of a
    non-negative [atomic] with
    [atomic * 10^|fp| = (the integer written ip fp) * 10^decimals].
    [coerceUsdtAtomic] does so with six decimals, [coerceSolLamports]
    with nine. *)
Theorem decimal_strings_convert_exactly (sign ip fp : jsstring) (decimals : nat) :
  integerPart sign ip -> digits fp -> (length fp <= decimals)%nat ->
  exists atomic : Z,
    decimalToAtomicString (JStr (sign ++ ip ++ DOT :: fp)) decimals
      = JStr (BigInt_toString atomic)
    /\ atomic * 10 ^ Z.of_nat (length fp)
       = BigInt (ip ++ fp) * 10 ^ Z.of_nat decimals
    /\ 0 <= atomic
    /\ digits (BigInt_toString atomic)
    /\ BigInt (BigInt_toString atomic) = atomic
    /\ (decimals = 6%nat ->
        coerceUsdtAtomic (JStr (sign ++ ip ++ DOT :: fp))
        = JStr (BigInt_toString atomic))
    /\ (decimals = 9%nat ->
        coerceSolLamports (JStr (sign ++ ip ++ DOT :: fp))
        = JStr (BigInt_toString atomic)).
Proof.
  intros Hip Hfp Hlen.
  set (atomic := BigInt ip * 10 ^ Z.of_nat decimals
                 + BigInt fp * 10 ^ Z.of_nat (decimals - length fp)).
  exists atomic.
  assert (Hai : forallb isDigit ip = true).
  { destruct Hip as [[_ Hd] | [_ ->]]; [now destruct (digits_inv ip Hd) | reflexivity]. }
  destruct (digits_inv fp Hfp) as [_ Haf].
  pose proof (BigInt_nonneg ip Hai) as Hi. pose proof (BigInt_nonneg fp Haf) as Hf.
  assert (Hpow : 10 ^ Z.of_nat (decimals - length fp) * 10 ^ Z.of_nat (length fp)
                 = 10 ^ Z.of_nat decimals).
  { rewrite <- Z.pow_add_r by lia. f_equal. lia. }
  assert (Hnn : 0 <= atomic) by (unfold atomic; nia).
  assert (E : decimalToAtomicString (JStr (sign ++ ip ++ DOT :: fp)) decimals
              = JStr (BigInt_toString atomic)).
  { cbn [decimalToAtomicString]. rewrite decimalStringToAtomic_token.
    rewrite (strippedToken_artifactFree _ (decimal_artifactFree sign ip fp Hip Hfp)).
    rewrite (convertToken_decimal sign ip fp decimals Hip Hfp).
    apply Nat.ltb_ge in Hlen. now rewrite Hlen. }
  destruct (BigInt_toString_nonneg atomic Hnn) as [Hd Hrt].
  split; [exact E|]. split.
  { unfold atomic. rewrite BigInt_app, <- Hpow. ring. }
  split; [exact Hnn|]. split; [exact Hd|]. split; [exact Hrt|]. split.
  - intros H6. unfold coerceUsdtAtomic. rewrite <- H6. exact E.
  - intros H9. unfold coerceSolLamports. rewrite <- H9. exact E.
Qed.

Lemma decimal_strings_convert_exactly_witness :
  integerPart [] (str "0") /\ digits (str "12") /\ (length (str "12") <= 6)%nat
  /\ exists atomic : Z,
       coerceUsdtAtomic (JStr (str "0.12")) = JStr (BigInt_toString atomic)
       /\ atomic * 10 ^ 2 = 12 * 10 ^ 6.
Proof.
  assert (H0 : integerPart [] (str "0")).
  { left. split; [now left | now apply digits_test]. }
  assert (H12 : digits (str "12")) by now apply digits_test.
  assert (Hlen : (length (str "12") <= 6)%nat) by (simpl; lia).
  split; [exact H0|]. split; [exact H12|]. split; [exact Hlen|].
  destruct (decimal_strings_convert_exactly [] (str "0") (str "12") 6 H0 H12 Hlen)
    as (atomic & E & Hexact & _).
  exists atomic. split; [exact E | exact Hexact].
Defined.

(** The two conversions the specification lists. *)
Example coerce_usdt_example :
  coerceUsdtAtomic (JStr (str "0.12")) = JStr (str "120000").
Proof. reflexivity. Qed.

Example coerce_lamports_example :
  coerceSolLamports (JStr (str "0.01")) = JStr (str "10000000").
Proof. reflexivity. Qed.

Example coerce_leading_point_example :
  coerceUsdtAtomic (JStr (str ".5")) = JStr (str "500000").
Proof. reflexivity. Qed.

(** ** The numerals the conversion accepts *)

Lemma startsWith_inv c s : startsWith c s = true -> exists s', s = c :: s'.
Proof.
  destruct s as [|d s']; simpl; [discriminate|].
  unfold codeEq. intros H. apply N.eqb_eq in H as ->. eauto.
Qed.

Lemma endsWith_inv c s : endsWith c s = true -> exists s', s = s' ++ [c].
Proof.
  unfold endsWith. intros H. apply startsWith_inv in H as [r Hr].
  exists (rev r). rewrite <- (rev_involutive s), Hr. reflexivity.
Qed.

Lemma last_cases (s : jsstring) : s = [] \/ exists s' c, s = s' ++ [c].
Proof.
  destruct s as [|d s]; [now left | right].
  destruct (exists_last (l := d :: s)) as (s' & c & E); [discriminate | eauto].
Qed.

Lemma forallb_digit_last s c : forallb isDigit (s ++ [c]) = true -> isDigit c = true.
Proof. rewrite forallb_app. simpl. rewrite andb_true_r. intros H. now apply andb_true_iff in H. Qed.

Lemma DOT_not_digit : isDigit DOT = false.
Proof. reflexivity. Qed.

(** A string that ends with a point is not a sign followed by digits. *)
Lemma signed_digits_no_point sign ip t :
  (sign = [] \/ sign = [PLUS]) -> forallb isDigit ip = true ->
  sign ++ ip = t ++ [DOT] -> False.
Proof.
  intros Hs Hip E.
  destruct (last_cases ip) as [-> | (ip' & c & ->)].
  - rewrite app_nil_r in E. destruct Hs as [-> | ->].
    + now destruct t.
    + destruct t as [|d t]; [discriminate|]. injection E as _ E. now destruct t.
  - rewrite app_assoc in E. apply app_inj_tail in E as [_ ->].
    apply forallb_digit_last in Hip. discriminate.
Qed.

Lemma convertToken_accepted tok d r :
  convertToken tok d = Some r -> acceptedNumeral tok.
Proof.
  unfold convertToken.
  destruct (isEmpty tok) eqn:Hne; [discriminate|].
  destruct (testAllDigits tok) eqn:Hdig.
  { intros _. apply digits_test in Hdig. apply (numeral_integer [] tok); auto. }
  destruct (startsWith DOT tok) eqn:Hsw.
  - (* a leading point *)
    apply startsWith_inv in Hsw as [t' ->].
    destruct (endsWith DOT (ZERO :: DOT :: t')) eqn:Hew;
      (destruct (matchDecimal _) as [[m1 m2]|] eqn:Hm; [|discriminate]); intros _;
      apply matchDecimal_sound in Hm as (sign & ip & Hs & Hip & _ & Hm2);
      destruct (digits_head_digit ip Hip) as (c & ip' & -> & Hc);
      destruct (digits_inv _ Hip) as [_ Hall]; simpl in Hall;
      apply andb_true_iff in Hall as [_ Hall'].
    + (* "." alone, or contradiction *)
      assert (Hshape : exists fp, digits fp /\ t' ++ [ZERO] = fp /\ sign = [] /\ ip' = []).
      { destruct m2 as [fp|].
        - destruct Hm2 as [Hfp E]. destruct Hs as [-> | ->]; [|discriminate].
          simpl in E. injection E as <- E.
          destruct ip' as [|c2 ip']; simpl in E.
          + injection E as E. eauto.
          + injection E as <- _. simpl in Hall'. discriminate.
        - destruct Hs as [-> | ->]; [|discriminate].
          simpl in Hm2. injection Hm2 as <- E.
          destruct ip' as [|c2 ip']; [discriminate|].
          injection E as <- _. discriminate. }
      destruct Hshape as (fp & Hfp & E & _ & _).
      apply endsWith_inv in Hew as [q Hq].
      destruct (last_cases t') as [-> | (t'' & c0 & ->)]; [apply numeral_point|].
      exfalso.
      change (ZERO :: DOT :: t'' ++ [c0]) with ((ZERO :: DOT :: t'') ++ [c0]) in Hq.
      apply app_inj_tail in Hq as [_ ->].
      apply digits_inv in Hfp as [_ Hfp]. rewrite <- E in Hfp.
      rewrite forallb_app in Hfp. apply andb_true_iff in Hfp as [Hfp _].
      apply forallb_digit_last in Hfp. discriminate.
    + destruct m2 as [fp|].
      * destruct Hm2 as [Hfp E]. destruct Hs as [-> | ->]; [|discriminate].
        simpl in E. injection E as <- E.
        destruct ip' as [|c2 ip']; simpl in E.
        -- injection E as <-. now apply numeral_leading_point.
        -- injection E as <- _. simpl in Hall'. discriminate.
      * destruct Hs as [-> | ->]; [|discriminate].
        simpl in Hm2. injection Hm2 as <- E.
        destruct ip' as [|c2 ip']; [discriminate|].
        injection E as <- _. discriminate.
  - destruct (endsWith DOT tok) eqn:Hew.
    + (* a trailing point *)
      apply endsWith_inv in Hew as [t0 ->].
      destruct (matchDecimal _) as [[m1 m2]|] eqn:Hm; [|discriminate]. intros _.
      apply matchDecimal_sound in Hm as (sign & ip & Hs & Hip & _ & Hm2).
      destruct (digits_inv _ Hip) as [_ Hall].
      destruct m2 as [fp|].
      * destruct Hm2 as [Hfp E].
        destruct (digits_last_digit fp Hfp) as (fp' & cl & -> & Hcl).
        replace (sign ++ ip ++ DOT :: fp' ++ [cl])
          with ((sign ++ ip ++ DOT :: fp') ++ [cl]) in E by now rewrite <- !app_assoc.
        apply app_inj_tail in E as [E _].
        destruct (last_cases fp') as [-> | (fp'' & c2 & ->)].
        -- replace (sign ++ ip ++ [DOT]) with ((sign ++ ip) ++ [DOT]) in E
             by now rewrite <- app_assoc.
           apply app_inj_tail in E as [-> _]. rewrite <- app_assoc.
           now apply numeral_trailing_point.
        -- exfalso.
           replace (sign ++ ip ++ DOT :: fp'' ++ [c2])
             with ((sign ++ ip ++ DOT :: fp'') ++ [c2]) in E by now rewrite <- !app_assoc.
           apply app_inj_tail in E as [_ E]. subst c2.
           apply digits_inv in Hfp as [_ Hfp]. rewrite forallb_app in Hfp.
           apply andb_true_iff in Hfp as [Hfp _].
           apply forallb_digit_last in Hfp. discriminate.
      * exfalso.
        destruct (digits_last_digit ip Hip) as (ip' & cl & -> & Hcl).
        rewrite app_assoc in Hm2. apply app_inj_tail in Hm2 as [E _].
        rewrite forallb_app in Hall. apply andb_true_iff in Hall as [Hall _].
        symmetry in E. exact (signed_digits_no_point sign ip' t0 Hs Hall E).
    + destruct (matchDecimal tok) as [[m1 m2]|] eqn:Hm; [|discriminate]. intros _.
      apply matchDecimal_sound in Hm as (sign & ip & Hs & Hip & _ & Hm2).
      destruct m2 as [fp|].
      * destruct Hm2 as [Hfp ->]. now apply numeral_fraction.
      * subst tok. now apply numeral_integer.
Qed.

Lemma convertToken_some_digits tok d r : convertToken tok d = Some r -> digits r.
Proof.
  unfold convertToken.
  destruct (isEmpty tok); [discriminate|].
  destruct (testAllDigits tok) eqn:Hdig; [intros [= <-]; now apply digits_test|].
  destruct (matchDecimal _) as [[m1 m2]|]; [|discriminate].
  destruct (_ <? _)%nat; [discriminate|].
  match goal with |- context [Z.ltb ?a 0] => destruct (Z.ltb_spec a 0) end; [discriminate|].
  intros [= <-]. now apply BigInt_toString_nonneg.
Qed.

Lemma acceptedNumeral_alphabet tok :
  acceptedNumeral tok ->
  Forall (fun c => isDigit c = true \/ c = PLUS \/ c = DOT) tok.
Proof.
  assert (Hd : forall s, digits s -> Forall (fun c => isDigit c = true \/ c = PLUS \/ c = DOT) s).
  { intros s H. destruct (digits_inv s H) as [_ Hall].
    rewrite forallb_forall in Hall. apply List.Forall_forall. auto. }
  assert (Hs : forall sign, sign = [] \/ sign = [PLUS] ->
               Forall (fun c => isDigit c = true \/ c = PLUS \/ c = DOT) sign).
  { intros sign [-> | ->]; [constructor | constructor; [auto | constructor]]. }
  destruct 1; repeat (apply Forall_app; split);
    repeat (apply List.Forall_cons); auto using List.Forall_nil.
Qed.

Lemma convertToken_letter_e tok d : In LETTER_e tok -> convertToken tok d = None.
Proof.
  intros Hin. destruct (convertToken tok d) as [r|] eqn:E; [exfalso | reflexivity].
  apply convertToken_accepted, acceptedNumeral_alphabet in E.
  rewrite List.Forall_forall in E. destruct (E _ Hin) as [H | [H | H]]; discriminate.
Qed.

Lemma acceptedNumeral_not_negative tok :
  acceptedNumeral tok -> startsWith MINUS tok = false.
Proof.
  intros H. apply acceptedNumeral_alphabet in H.
  destruct H as [|c tok Hc _]; [reflexivity|]. simpl.
  destruct Hc as [Hc | [-> | ->]]; [|reflexivity|reflexivity].
  clear -Hc. code_cases.
Qed.

Lemma convertToken_excess tok d : excessFraction tok d -> convertToken tok d = None.
Proof.
  intros (sign & ip & fp & Hip & Hfp & -> & Hlen).
  rewrite (convertToken_decimal sign ip fp d Hip Hfp).
  apply Nat.ltb_lt in Hlen. now rewrite Hlen.
Qed.

(** A string whose token is not converted comes back as it is. *)
Lemma decimalStringToAtomic_unchanged s d :
  convertToken (strippedToken s) d = None -> decimalStringToAtomic s d = JStr s.
Proof. intros H. now rewrite decimalStringToAtomic_token, H. Qed.

(** The result of the string part: the string itself or digits only,
    and in both cases a string the conversion leaves alone. *)
Lemma decimalStringToAtomic_result s d :
  exists r,
    decimalStringToAtomic s d = JStr r
    /\ (r = s \/ digits r)
    /\ decimalStringToAtomic r d = JStr r.
Proof.
  destruct (convertToken (strippedToken s) d) as [r|] eqn:E.
  - exists r. rewrite decimalStringToAtomic_token, E.
    pose proof (convertToken_some_digits _ _ _ E) as Hr.
    repeat split; [now right | now apply decimalStringToAtomic_digits].
  - exists s. rewrite (decimalStringToAtomic_unchanged s d E). auto.
Qed.


(** ** Artifact stripping *)

Lemma trim_leading lead s :
  Forall (fun c => isWhiteSpace c = true) lead -> trim (lead ++ s) = trim s.
Proof.
  intros H. unfold trim. f_equal. f_equal. f_equal.
  induction H as [|c lead Hc _ IH]; [reflexivity|]. simpl. now rewrite Hc.
Qed.

(** C7. Before parsing, both coercers remove underscores and commas
    and keep only the first white-space-separated token: for a token
    [x], after any leading white space and followed by white space and
    any suffix [u], the stripped token is [x] without its underscores
    and commas, it holds no artifact, and the result of
    [coerceUsdtAtomic] and of [coerceSolLamports] (of
    [decimalToAtomicString] at any number of decimals) is the
    conversion of that token, the same as for the token alone; when
    the token does not convert, the input comes back whole. *)
Theorem artifacts_are_stripped (lead x u : jsstring) (w : N) :
  Forall (fun c => isWhiteSpace c = true) lead ->
  x <> [] -> noWhite x -> isWhiteSpace w = true ->
  let token := removeAll COMMA (removeAll UNDERSCORE x) in
  let input := lead ++ x ++ w :: u in
  let stripped (coerce : jsval -> jsval) (decimals : nat) :=
    coerce (JStr input)
    = match convertToken token decimals with
      | Some r => JStr r
      | None => JStr input
      end
    /\ coerce (JStr x)
       = match convertToken token decimals with
         | Some r => JStr r
         | None => JStr x
         end
    /\ coerce (JStr token)
       = match convertToken token decimals with
         | Some r => JStr r
         | None => JStr token
         end
    /\ (is_Some (convertToken token decimals) ->
        coerce (JStr input) = coerce (JStr token)
        /\ coerce (JStr x) = coerce (JStr token)) in
  strippedToken input = token
  /\ strippedToken x = token
  /\ artifactFree token
  /\ stripped coerceUsdtAtomic 6%nat
  /\ stripped coerceSolLamports 9%nat
  /\ forall decimals,
       stripped (fun v => decimalToAtomicString v decimals) decimals.
Proof.
  intros Hlead Hne Hx Hw token input stripped.
  assert (E1 : strippedToken input = token).
  { unfold strippedToken, input. rewrite (trim_leading lead _ Hlead).
    exact (strippedToken_suffix x w u Hne Hx Hw). }
  pose proof (strippedToken_noWhite x Hx) as E2. fold token in E2.
  assert (Hfree : artifactFree token).
  { rewrite <- E2. apply strippedToken_is_artifactFree. }
  assert (Hall : forall decimals,
             stripped (fun v => decimalToAtomicString v decimals) decimals).
  { intros decimals. unfold stripped.
    cbn [decimalToAtomicString]. rewrite !decimalStringToAtomic_token.
    rewrite E1, E2, (strippedToken_artifactFree token Hfree).
    repeat split; try reflexivity;
      destruct H as [r Hr]; rewrite Hr; reflexivity. }
  split; [exact E1|]. split; [exact E2|]. split; [exact Hfree|].
  split; [exact (Hall 6%nat)|]. split; [exact (Hall 9%nat) | exact Hall].
Qed.

Lemma artifacts_are_stripped_witness :
  str "0.12" <> [] /\ noWhite (str "0.12") /\ isWhiteSpace 32 = true
  /\ strippedToken (str "0.12 usdt") = str "0.12"
  /\ coerceUsdtAtomic (JStr (str "0.12 usdt")) = JStr (str "120000")
  /\ coerceUsdtAtomic (JStr (str "0.12")) = JStr (str "120000")
  /\ coerceSolLamports (JStr (str "0.12 usdt")) = JStr (str "120000000")
  /\ coerceSolLamports (JStr (str "0.12")) = JStr (str "120000000").
Proof.
  assert (H1 : str "0.12" <> []) by discriminate.
  assert (H2 : noWhite (str "0.12")) by (repeat constructor).
  assert (H3 : isWhiteSpace 32 = true) by reflexivity.
  split; [exact H1|]. split; [exact H2|]. split; [exact H3|].
  pose proof (artifacts_are_stripped [] (str "0.12") (str "usdt") 32
                (List.Forall_nil _) H1 H2 H3) as H.
  cbv zeta in H.
  destruct H as (E1 & _ & _ & (U1 & U2 & _) & (L1 & L2 & _) & _).
  split; [exact E1|]. split; [exact U1|]. split; [exact U2|].
  split; [exact L1 | exact L2].
Defined.

(** Underscores and commas inside the token go as well. *)
Example coerce_grouped_example :
  coerceUsdtAtomic (JStr (str " 1_000,000.5 usdt")) = JStr (str "1000000500000").
Proof. reflexivity. Qed.

(** ** Inputs that are not converted *)

Lemma negative_toFixed_unchanged (m : positive) (e : Z) (d : nat) :
  decimalStringToAtomic (Number_toFixed (S754_finite true m e) d) d
  = JStr (Number_toFixed (S754_finite true m e) d).
Proof.
  apply decimalStringToAtomic_unchanged.
  destruct (convertToken _ d) as [r|] eqn:E; [exfalso | reflexivity].
  apply convertToken_accepted, acceptedNumeral_not_negative in E.
  assert (Hshape : exists rest, Number_toFixed (S754_finite true m e) d = MINUS :: rest).
  { unfold Number_toFixed. destruct (_ <=? _); simpl; eauto. }
  destruct Hshape as [rest Hr]. rewrite Hr in E.
  unfold strippedToken, trim in E.
  assert (Hm : isWhiteSpace MINUS = false) by reflexivity.
  cbn [dropWhiteSpace] in E. rewrite Hm in E.
  change (rev (MINUS :: rest)) with (rev rest ++ [MINUS]) in E.
  destruct (dropWhiteSpace_keeps (rev rest) MINUS [] Hm) as (p & a' & _ & Ha).
  rewrite Ha, rev_app_distr in E. simpl in E. discriminate.
Qed.

(** C6, the statement as given fails on a number: the negative number
    [-1.5] does not come back as itself but as the string
    ["-1.500000"] that [toFixed(6)] makes of it. *)
Lemma negative_number_is_not_returned_unchanged :
  Number_geZero (dyadic (-3) 1) = false
  /\ coerceUsdtAtomic (JNum (dyadic (-3) 1)) = JStr (str "-1.500000")
  /\ coerceUsdtAtomic (JNum (dyadic (-3) 1)) <> JNum (dyadic (-3) 1).
Proof.
  assert (E : coerceUsdtAtomic (JNum (dyadic (-3) 1)) = JStr (str "-1.500000"))
    by (vm_compute; reflexivity).
  split; [reflexivity|]. split; [exact E|]. rewrite E. discriminate.
Qed.

(** A number with more than six digits after the point,
    [2^-10 = 0.0009765625], is rounded to six and converted. *)
Example long_fraction_number_is_rounded :
  coerceUsdtAtomic (JNum (dyadic 1 10)) = JStr (str "977").
Proof. vm_compute. reflexivity. Qed.

(** C6, amended. A string whose stripped token is negative, has more
    fractional digits than [decimals] or is not an accepted numeral is
    returned unchanged, and so is every value that is neither a string
    nor a finite number. A finite number that is not a non-negative
    integer goes through [toFixed(decimals)] first: the result is a
    string, for a negative number the [toFixed] rendering itself. *)
Theorem unconverted_input_is_returned :
  (forall (s : jsstring) (decimals : nat),
      startsWith MINUS (strippedToken s) = true
      \/ excessFraction (strippedToken s) decimals
      \/ ~ acceptedNumeral (strippedToken s) ->
      decimalToAtomicString (JStr s) decimals = JStr s)
  /\ (forall (v : jsval) (decimals : nat),
      otherValue v -> decimalToAtomicString v decimals = v)
  /\ (forall (x : number) (decimals : nat),
      Number_isFinite x = false ->
      decimalToAtomicString (JNum x) decimals = JNum x)
  /\ (forall (x : number) (decimals : nat),
      Number_isFinite x = true ->
      Number_isInteger x && Number_geZero x = false ->
      exists r,
        decimalToAtomicString (JNum x) decimals = JStr r
        /\ (Number_geZero x = false -> r = Number_toFixed x decimals)).
Proof.
  repeat apply conj.
  - intros s d H. cbn [decimalToAtomicString].
    apply decimalStringToAtomic_unchanged.
    destruct H as [H | [H | H]].
    + destruct (convertToken _ d) as [r|] eqn:E; [exfalso | reflexivity].
      apply convertToken_accepted, acceptedNumeral_not_negative in E. congruence.
    + now apply convertToken_excess.
    + destruct (convertToken _ d) as [r|] eqn:E; [exfalso | reflexivity].
      apply H. eapply convertToken_accepted, E.
  - intros v d H. destruct v; simpl in H; try contradiction; reflexivity.
  - intros x d H. cbn [decimalToAtomicString]. now rewrite H.
  - intros x d Hf Hi. cbn [decimalToAtomicString]. rewrite Hf, Hi. cbn [negb].
    destruct (decimalStringToAtomic_result (Number_toFixed x d) d) as (r & Hr & _).
    exists r. split; [exact Hr|]. intros Hneg.
    destruct x as [s | s | | s m e]; simpl in Hf, Hneg; try discriminate.
    destruct s; [|discriminate].
    rewrite negative_toFixed_unchanged in Hr. now injection Hr.
Qed.

Lemma unconverted_input_is_returned_witness :
  ~ acceptedNumeral (strippedToken (str "not-a-number"))
  /\ coerceUsdtAtomic (JStr (str "not-a-number")) = JStr (str "not-a-number").
Proof.
  assert (H : ~ acceptedNumeral (strippedToken (str "not-a-number"))).
  { intros Hacc. apply acceptedNumeral_alphabet, Forall_inv in Hacc.
    destruct Hacc as [Hd | [Hd | Hd]]; discriminate. }
  split; [exact H|].
  exact (proj1 unconverted_input_is_returned (str "not-a-number") 6%nat
           (or_intror (or_intror H))).
Defined.


(** ** Idempotence *)

Lemma dropZeros_digits s : forallb isDigit s = true -> forallb isDigit (dropZeros s) = true.
Proof.
  induction s as [|c s IH]; simpl; [easy|]. intros H.
  apply andb_true_iff in H as [Hc Hs].
  destruct (codeEq c ZERO); [auto | simpl; now rewrite Hc, Hs].
Qed.

Lemma forallb_rev (f : N -> bool) s : forallb f (rev s) = forallb f s.
Proof.
  induction s as [|c s IH]; [reflexivity|].
  simpl. rewrite forallb_app, IH. simpl. rewrite andb_true_r. apply andb_comm.
Qed.

(** Neither digits, the point, the exponent mark nor the plus sign are
    artifacts. *)
Lemma numeral_units_artifactFree s :
  Forall (fun c => isDigit c = true \/ c = DOT \/ c = LETTER_e \/ c = PLUS) s ->
  artifactFree s.
Proof.
  apply List.Forall_impl. intros c [H | [-> | [-> | ->]]].
  - pose proof (isDigit_not_white c H). pose proof (isDigit_codes c H). tauto.
  - split; [reflexivity | split; discriminate].
  - split; [reflexivity | split; discriminate].
  - split; [reflexivity | split; discriminate].
Qed.

Lemma digits_numeral_units s :
  forallb isDigit s = true ->
  Forall (fun c => isDigit c = true \/ c = DOT \/ c = LETTER_e \/ c = PLUS) s.
Proof.
  rewrite forallb_forall. intros H. apply List.Forall_forall. auto.
Qed.

(** A string of [Number::toString] for an integral value is made of
    digits only, or is in exponent notation. *)
Lemma formatIntegral_shape y :
  digits (formatIntegral y)
  \/ (artifactFree (formatIntegral y) /\ In LETTER_e (formatIntegral y)).
Proof.
  unfold formatIntegral.
  set (all := decimalDigits (Z.to_N y)).
  pose proof (decimalDigits_digits (Z.to_N y)) as Hall. fold all in Hall.
  destruct (length all <=? 21)%nat; [now left|].
  set (sig := rev (dropZeros (rev all))).
  assert (Hsig : forallb isDigit sig = true).
  { subst sig. rewrite forallb_rev. apply dropZeros_digits.
    rewrite forallb_rev. now destruct (digits_inv all Hall). }
  set (n := N.of_nat (length all - 1)).
  pose proof (decimalDigits_digits n) as Hn. apply digits_inv in Hn as [_ Hn].
  destruct sig as [|d [|d' ds]]; [now left | right | right].
  - simpl in Hsig. rewrite andb_true_r in Hsig. split.
    + apply numeral_units_artifactFree.
      repeat (apply List.Forall_cons; [tauto|]). now apply digits_numeral_units.
    + simpl. tauto.
  - simpl in Hsig. apply andb_true_iff in Hsig as [Hd Hds]. split.
    + apply numeral_units_artifactFree.
      repeat (apply List.Forall_cons; [tauto|]).
      change (d' :: ds ++ LETTER_e :: PLUS :: decimalDigits n)
        with ((d' :: ds) ++ LETTER_e :: PLUS :: decimalDigits n).
      apply Forall_app. split; [now apply digits_numeral_units|].
      repeat (apply List.Forall_cons; [tauto|]). now apply digits_numeral_units.
    + right. right. apply in_or_app. right. now left.
Qed.

(** The string of a non-negative integral number is left alone. *)
Lemma Number_toString_integral_fixed (x : number) (d : nat) :
  Number_isFinite x = true -> Number_geZero x = true ->
  decimalStringToAtomic (Number_toString_integral x) d
  = JStr (Number_toString_integral x).
Proof.
  intros Hf Hg. destruct x as [s | s | | s m e]; simpl in Hf, Hg; try discriminate.
  - apply decimalStringToAtomic_digits. now apply digits_test.
  - destruct s; [discriminate|]. cbn [Number_toString_integral app].
    destruct (formatIntegral_shape
                (shortestFrom (S754_finite false m e) (magnitudeFloor m e)
                   (length (decimalDigits (Z.to_N (magnitudeFloor m e))))))
      as [H | [Hfree He]].
    + now apply decimalStringToAtomic_digits.
    + apply decimalStringToAtomic_unchanged.
      rewrite (strippedToken_artifactFree _ Hfree).
      now apply convertToken_letter_e.
Qed.

Lemma decimalToAtomicString_idempotent (v : jsval) (d : nat) :
  decimalToAtomicString (decimalToAtomicString v d) d = decimalToAtomicString v d.
Proof.
  destruct v as [ | | b | x | s | l | o]; try reflexivity.
  - cbn [decimalToAtomicString].
    destruct (Number_isFinite x) eqn:Hf; cbn [negb].
    2:{ cbn [decimalToAtomicString]. now rewrite Hf. }
    destruct (Number_isInteger x && Number_geZero x) eqn:Hi.
    + apply andb_true_iff in Hi as [_ Hg]. cbn [decimalToAtomicString].
      now apply Number_toString_integral_fixed.
    + destruct (decimalStringToAtomic_result (Number_toFixed x d) d) as (r & -> & _ & Hr).
      exact Hr.
  - cbn [decimalToAtomicString].
    destruct (decimalStringToAtomic_result s d) as (r & -> & _ & Hr). exact Hr.
Qed.

(** C9, the statement as given fails on a number: for [10^21] the
    output is the string ["1e+21"], which is neither the input (a
    number) nor a string of digits. *)
Lemma coercer_output_is_neither_input_nor_digits :
  Number_isInteger (toBinary64 (10 ^ 21)) && Number_geZero (toBinary64 (10 ^ 21)) = true
  /\ coerceUsdtAtomic (JNum (toBinary64 (10 ^ 21))) = JStr (str "1e+21")
  /\ coerceUsdtAtomic (JNum (toBinary64 (10 ^ 21))) <> JNum (toBinary64 (10 ^ 21))
  /\ testAllDigits (str "1e+21") = false.
Proof.
  assert (E : coerceUsdtAtomic (JNum (toBinary64 (10 ^ 21))) = JStr (str "1e+21"))
    by (vm_compute; reflexivity).
  split; [vm_compute; reflexivity|]. split; [exact E|].
  split; [|reflexivity]. rewrite E. discriminate.
Qed.

Lemma decimalToAtomicString_shape (decimals : nat) (v : jsval) :
  coercerShape (fun v => decimalToAtomicString v decimals) decimals v.
Proof.
  destruct v as [ | | b | x | s | l | o]; try reflexivity.
  - pose proof (decimalToAtomicString_idempotent (JNum x) decimals) as Hid.
    cbn [coercerShape decimalToAtomicString] in Hid |- *.
    destruct (Number_isFinite x); cbn [negb] in *; [|reflexivity].
    destruct (Number_isInteger x && Number_geZero x).
    + eexists. split; [reflexivity|]. split; [exact Hid | reflexivity].
    + destruct (decimalStringToAtomic_result (Number_toFixed x decimals) decimals)
        as (r & Hr & Hshape & Hfix).
      exists r. split; [exact Hr|]. split; [exact Hfix|]. split; [exact Hr | exact Hshape].
  - cbn [coercerShape decimalToAtomicString].
    destruct (decimalStringToAtomic_result s decimals) as (r & Hr & [-> | Hd] & _).
    + now left.
    + right. eauto.
Qed.

(** C9, amended. Both coercers are idempotent on every value. For a
    string the output is the input itself or a string of digits, for a
    value that is neither a string nor a number it is the input itself;
    for a number it is the number itself (NaN and the infinities) or a
    string that the coercer then leaves unchanged: [String(v)] for a
    non-negative integer, otherwise the conversion of
    [v.toFixed(decimals)]. Strings of digits are fixed points. *)
Theorem coercers_are_idempotent (v : jsval) (decimals : nat) :
  decimalToAtomicString (decimalToAtomicString v decimals) decimals
    = decimalToAtomicString v decimals
  /\ coerceUsdtAtomic (coerceUsdtAtomic v) = coerceUsdtAtomic v
  /\ coerceSolLamports (coerceSolLamports v) = coerceSolLamports v
  /\ coercerShape coerceUsdtAtomic 6 v
  /\ coercerShape coerceSolLamports 9 v
  /\ coercerShape (fun v => decimalToAtomicString v decimals) decimals v
  /\ (forall r, digits r ->
        coerceUsdtAtomic (JStr r) = JStr r
        /\ coerceSolLamports (JStr r) = JStr r
        /\ decimalToAtomicString (JStr r) decimals = JStr r).
Proof.
  split; [apply decimalToAtomicString_idempotent|].
  split; [apply decimalToAtomicString_idempotent|].
  split; [apply decimalToAtomicString_idempotent|].
  split; [exact (decimalToAtomicString_shape 6 v)|].
  split; [exact (decimalToAtomicString_shape 9 v)|].
  split; [exact (decimalToAtomicString_shape decimals v)|].
  intros r Hr. repeat split; now apply decimalStringToAtomic_digits.
Qed.

(** The integer branch at work: the number [120000] is printed, not
    scaled; scaled it would read 120000000000. *)
Example integer_number_is_printed :
  coerceUsdtAtomic (JNum (toBinary64 120000)) = JStr (str "120000")
  /\ coerceSolLamports (JNum (toBinary64 120000)) = JStr (str "120000")
  /\ coerceUsdtAtomic (JNum (dyadic 1 1)) = JStr (str "500000")
  /\ coerceSolLamports (JNum (dyadic 1 1)) = JStr (str "500000000").
Proof. repeat split; vm_compute; reflexivity. Qed.


(** ** [repairToolArguments] *)

Lemma toolIs_true toolName name : toolName = str name -> toolIs toolName name = true.
Proof. intros ->. unfold toolIs. now apply bool_decide_eq_true. Qed.

Lemma toolIs_false toolName name : toolName <> str name -> toolIs toolName name = false.
Proof. intros H. unfold toolIs. now apply bool_decide_eq_false. Qed.

Lemma coerced_field_lookup (k key : jsstring) (f : jsval -> jsval)
    (o : gmap jsstring jsval) :
  k <> key ->
  (if hasKey key o then <[key := f (getProp o key)]> o else o) !! k = o !! k.
Proof.
  intros H. destruct (hasKey key o); [|reflexivity].
  now rewrite lookup_insert_ne.
Qed.

(** C10. Outside the six tools it knows, and on arguments that are not
    a plain object, [repairToolArguments] returns its argument; for
    rfq_post, quote_post and terms_post every field other than
    [usdt_amount] keeps its value, no field is added or removed, and
    [usdt_amount], when present, is the coerced value. *)
Theorem repair_is_identity_outside_scope (toolName : jsstring) (args : jsval) :
  (~ In toolName repairedTools -> repairToolArguments toolName args = args)
  /\ (isObject args = false -> repairToolArguments toolName args = args)
  /\ (toolName = str "intercomswap_rfq_post"
      \/ toolName = str "intercomswap_quote_post"
      \/ toolName = str "intercomswap_terms_post" ->
      forall fields, args = JObj fields ->
      exists out,
        repairToolArguments toolName args = JObj out
        /\ (forall k, k <> str "usdt_amount" -> out !! k = fields !! k)
        /\ out !! str "usdt_amount"
           = coerceUsdtAtomic <$> fields !! str "usdt_amount").
Proof.
  repeat apply conj.
  - intros Hout. destruct args as [ | | b | x | s | l | o]; try reflexivity.
    unfold repairedTools in Hout. cbn [In] in Hout.
    unfold repairToolArguments.
    rewrite !toolIs_false by (intros E; apply Hout; subst toolName; auto 10).
    reflexivity.
  - intros Hobj. destruct args; try reflexivity. discriminate.
  - intros Htool fields ->. unfold repairToolArguments.
    assert (Hoffer : toolIs toolName "intercomswap_offer_post" = false).
    { apply toolIs_false. destruct Htool as [-> | [-> | ->]]; discriminate. }
    assert (Hthree : toolIs toolName "intercomswap_rfq_post"
                     || toolIs toolName "intercomswap_quote_post"
                     || toolIs toolName "intercomswap_terms_post" = true).
    { destruct Htool as [H | [H | H]];
        rewrite (toolIs_true _ _ H); rewrite ?orb_true_r; reflexivity. }
    rewrite Hoffer, Hthree. eexists. split; [reflexivity|]. split.
    + intros k Hk. now apply coerced_field_lookup.
    + unfold hasKey, getProp.
      destruct (fields !! str "usdt_amount") as [v|] eqn:Hv.
      * rewrite bool_decide_eq_true_2 by eauto. now rewrite lookup_insert_eq.
      * rewrite bool_decide_eq_false_2 by (intros [? ?]; discriminate).
        now rewrite Hv.
Qed.

Lemma repair_is_identity_outside_scope_witness :
  ~ In (str "intercomswap_sol_balance") repairedTools
  /\ repairToolArguments (str "intercomswap_sol_balance")
       (JObj {[ str "usdt_amount" := JStr (str "0.12") ]})
     = JObj {[ str "usdt_amount" := JStr (str "0.12") ]}.
Proof.
  assert (H : ~ In (str "intercomswap_sol_balance") repairedTools).
  { unfold repairedTools. cbn [In]. intros [H | [H | [H | [H | [H | [H | []]]]]]];
      discriminate H. }
  split; [exact H|].
  exact (proj1 (repair_is_identity_outside_scope (str "intercomswap_sol_balance")
                  (JObj {[ str "usdt_amount" := JStr (str "0.12") ]})) H).
Defined.


(** ** The flattening repair of offer_post *)

Lemma copyKeys_lookup out fl o k :
  copyKeys out fl o !! k
  = if bool_decide (k ∈ fl) then Some (getProp out k) else o !! k.
Proof.
  unfold copyKeys. revert o. induction fl as [|a fl IH]; intros o; cbn [fold_left].
  - reflexivity.
  - rewrite IH. destruct (decide (k ∈ fl)) as [Hin | Hin].
    + rewrite !bool_decide_eq_true_2; [reflexivity | (rewrite elem_of_cons; tauto) | exact Hin].
    + rewrite (bool_decide_eq_false_2 (k ∈ fl)) by exact Hin.
      destruct (decide (k = a)) as [-> | Hne].
      * rewrite lookup_insert_eq, bool_decide_eq_true_2; [reflexivity | (rewrite elem_of_cons; tauto)].
      * rewrite lookup_insert_ne by congruence.
        rewrite bool_decide_eq_false_2; [reflexivity | (rewrite elem_of_cons; tauto)].
Qed.

Lemma mergeMissing_lookup out fl merged k :
  mergeMissing out fl merged !! k
  = match merged !! k with
    | Some v => Some v
    | None => if bool_decide (k ∈ fl) then Some (getProp out k) else None
    end.
Proof.
  unfold mergeMissing. revert merged.
  induction fl as [|a fl IH]; intros merged; cbn [fold_left].
  - now destruct (merged !! k).
  - rewrite IH. unfold hasKey.
    destruct (decide (is_Some (merged !! a))) as [Ha | Ha].
    + rewrite (bool_decide_eq_true_2 _ Ha).
      destruct (merged !! k) eqn:Ek; [reflexivity|].
      assert (k <> a) by (intros ->; destruct Ha; congruence).
      destruct (decide (k ∈ fl)).
      * rewrite !bool_decide_eq_true_2; [reflexivity | (rewrite elem_of_cons; tauto) | assumption].
      * rewrite !bool_decide_eq_false_2; [reflexivity | (rewrite elem_of_cons; tauto) | assumption].
    + rewrite (bool_decide_eq_false_2 _ Ha).
      destruct (decide (k = a)) as [-> | Hne].
      * rewrite lookup_insert_eq.
        assert (merged !! a = None) as -> by (now apply eq_None_not_Some).
        rewrite bool_decide_eq_true_2; [reflexivity | (rewrite elem_of_cons; tauto)].
      * rewrite lookup_insert_ne by congruence.
        destruct (merged !! k) eqn:Ek; [reflexivity|].
        destruct (decide (k ∈ fl)).
        -- rewrite !bool_decide_eq_true_2; [reflexivity | (rewrite elem_of_cons; tauto) | assumption].
        -- rewrite !bool_decide_eq_false_2; [reflexivity | (rewrite elem_of_cons; tauto) | assumption].
Qed.

Lemma deleteKeys_lookup fl out k :
  deleteKeys fl out !! k = if bool_decide (k ∈ fl) then None else out !! k.
Proof.
  unfold deleteKeys. revert out. induction fl as [|a fl IH]; intros out; cbn [fold_left].
  - reflexivity.
  - rewrite IH. destruct (decide (k ∈ fl)) as [Hin | Hin].
    + rewrite !bool_decide_eq_true_2; [reflexivity | (rewrite elem_of_cons; tauto) | exact Hin].
    + rewrite (bool_decide_eq_false_2 (k ∈ fl)) by exact Hin.
      destruct (decide (k = a)) as [-> | Hne].
      * rewrite lookup_delete_eq, bool_decide_eq_true_2; [reflexivity | (rewrite elem_of_cons; tauto)].
      * rewrite lookup_delete_ne by congruence.
        rewrite bool_decide_eq_false_2; [reflexivity | (rewrite elem_of_cons; tauto)].
Qed.

Lemma offerKeys_other k :
  k ∈ offerKeys ->
  k <> str "offers" /\ k <> str "channel" /\ k <> str "channels".
Proof.
  unfold offerKeys. rewrite !elem_of_cons, elem_of_nil.
  intros H. repeat destruct H as [H | H]; try contradiction; subst k;
    repeat split; discriminate.
Qed.

Lemma repairChannel_lookup a k :
  k <> str "channel" -> k <> str "channels" -> repairChannel a !! k = a !! k.
Proof.
  intros H1 H2. unfold repairChannel.
  assert (Hfix : forall c,
             (if isEmpty (trim c) then a
              else delete (str "channel") (<[str "channels" := JArr [JStr (trim c)]]> a)) !! k
             = a !! k).
  { intros c. destruct (isEmpty (trim c)); [reflexivity|].
    rewrite lookup_delete_ne, lookup_insert_ne by congruence. reflexivity. }
  destruct (a !! str "channels") as [[ | | | | | | ]|];
    destruct (a !! str "channel") as [[ | | | | | | ]|]; auto.
Qed.

Lemma coerceOffer_object m :
  exists m', coerceOffer (JObj m) = JObj m'
             /\ forall k, m' !! k = coerceKey k <$> m !! k.
Proof.
  unfold coerceOffer, hasKey.
  destruct (decide (is_Some (m !! str "usdt_amount"))) as [Hu | Hu].
  - rewrite (bool_decide_eq_true_2 _ Hu). eexists. split; [reflexivity|].
    intros k. unfold coerceKey. destruct (decide (k = str "usdt_amount")) as [-> | Hne].
    + rewrite lookup_insert_eq, bool_decide_eq_true_2 by reflexivity.
      destruct Hu as [v Hv]. unfold getProp. now rewrite Hv.
    + rewrite lookup_insert_ne by congruence.
      rewrite bool_decide_eq_false_2 by exact Hne. now destruct (m !! k).
  - rewrite (bool_decide_eq_false_2 _ Hu). exists m. split; [reflexivity|].
    intros k. unfold coerceKey. destruct (decide (k = str "usdt_amount")) as [-> | Hne].
    + apply eq_None_not_Some in Hu. now rewrite Hu.
    + rewrite bool_decide_eq_false_2 by exact Hne. now destruct (m !! k).
Qed.


Lemma existingOffers_repairChannel args :
  existingOffers (repairChannel args) = existingOffers args.
Proof.
  unfold existingOffers. rewrite repairChannel_lookup by discriminate. reflexivity.
Qed.

Lemma flattenOffers_unfold out fl :
  flattenOffers out fl
  = deleteKeys fl
      (<[str "offers" :=
           JArr (match existingOffers out with
                 | Some (first, rest) => JObj (mergeMissing out fl first) :: rest
                 | None => [JObj (copyKeys out fl ∅)]
                 end)]> out).
Proof.
  unfold flattenOffers, existingOffers.
  destruct (out !! str "offers") as [[ | | | | | [|[ | | | | | | ] l] | ]|]; reflexivity.
Qed.

Lemma flattened_elem (args : gmap jsstring jsval) k :
  k ∈ filter (fun k => hasKey k (repairChannel args) = true) offerKeys
  <-> k ∈ offerKeys /\ is_Some (args !! k).
Proof.
  rewrite list_elem_of_filter. unfold hasKey. rewrite bool_decide_eq_true.
  split; intros [H1 H2].
  - destruct (offerKeys_other k H2) as (_ & Hc & Hcs).
    rewrite repairChannel_lookup in H1 by assumption. auto.
  - destruct (offerKeys_other k H1) as (_ & Hc & Hcs).
    rewrite repairChannel_lookup by assumption. auto.
Qed.

(** C8, the statement as given fails when [offers] already holds
    offers: the array keeps its other elements, so it is not a
    single-element array, and the [usdt_amount] the first offer already
    had does not keep its value, it is coerced to atomic units. *)
Lemma flattening_keeps_other_offers_and_coerces :
  let first := {[ str "usdt_amount" := JStr (str "0.12") ]} in
  let second := {[ str "have" := JStr (str "USDT_SOL") ]} in
  let args := {[ str "pair" := JStr (str "BTC_LN/USDT_SOL");
                 str "offers" := JArr [JObj first; JObj second] ]} in
  exists out merged,
    repairToolArguments (str "intercomswap_offer_post") (JObj args) = JObj out
    /\ out !! str "offers" = Some (JArr [JObj merged; JObj second])
    /\ first !! str "usdt_amount" = Some (JStr (str "0.12"))
    /\ merged !! str "usdt_amount" = Some (JStr (str "120000"))
    /\ merged !! str "pair" = Some (JStr (str "BTC_LN/USDT_SOL")).
Proof.
  eexists _, _. split; [reflexivity|].
  split; [vm_compute; reflexivity|].
  repeat split; vm_compute; reflexivity.
Qed.

(** C8, amended. When the arguments of offer_post carry offer keys at
    the top level, the result has none of them at the top level and has
    an [offers] array that starts with an object holding each of them.
    Where [offers] was not an array starting with an object, that object
    is the only element and holds the flattened keys only; otherwise it
    is the first offer with the missing keys added and nothing else,
    followed by the other offers. A key the first offer already had
    keeps the value it had there, a missing one takes the top-level
    value, and in both cases [usdt_amount] (in every offer) goes through
    [coerceUsdtAtomic]. Other top-level fields are kept. *)
Theorem flattened_offer_keys_are_moved (args : gmap jsstring jsval) :
  (exists k, k ∈ offerKeys /\ is_Some (args !! k)) ->
  exists out first rest,
    repairToolArguments (str "intercomswap_offer_post") (JObj args) = JObj out
    /\ out !! str "offers" = Some (JArr (JObj first :: rest))
    /\ (forall k, k ∈ offerKeys -> out !! k = None)
    /\ (forall k v, k ∈ offerKeys -> args !! k = Some v ->
          first !! k
          = Some (coerceKey k
                    match existingOffers args with
                    | Some (first0, _) => default v (first0 !! k)
                    | None => v
                    end))
    /\ match existingOffers args with
       | Some (first0, rest0) =>
           rest = map coerceOffer rest0
           /\ (forall k v0, first0 !! k = Some v0 -> first !! k = Some (coerceKey k v0))
           /\ (forall k, is_Some (first !! k) ->
                 is_Some (first0 !! k) \/ (k ∈ offerKeys /\ is_Some (args !! k)))
           /\ (forall k,
                 first !! k
                 = coerceKey k <$> match first0 !! k with
                                   | Some v0 => Some v0
                                   | None => if bool_decide (k ∈ offerKeys)
                                             then args !! k else None
                                   end)
       | None =>
           rest = []
           /\ (forall k, is_Some (first !! k) -> k ∈ offerKeys /\ is_Some (args !! k))
           /\ (forall k,
                 first !! k
                 = coerceKey k <$> (if bool_decide (k ∈ offerKeys)
                                    then args !! k else None))
       end
    /\ (forall k, k ∉ offerKeys -> k <> str "offers" ->
          k <> str "channel" -> k <> str "channels" -> out !! k = args !! k).
Proof.
  intros (k0 & Hk0 & Hv0).
  cbn [repairToolArguments].
  assert (toolIs (str "intercomswap_offer_post") "intercomswap_offer_post" = true) as ->
    by reflexivity.
  unfold repairOfferPost.
  set (out1 := repairChannel args).
  set (fl := filter (fun k => hasKey k out1 = true) offerKeys).
  assert (Hfl : forall k, k ∈ fl <-> k ∈ offerKeys /\ is_Some (args !! k))
    by (intros k; apply flattened_elem).
  assert (Hlen : (0 <? length fl)%nat = true).
  { apply Nat.ltb_lt. assert (Hin : k0 ∈ fl) by (apply Hfl; auto).
    destruct fl as [|a fl']; [now apply elem_of_nil in Hin | simpl; lia]. }
  rewrite Hlen, flattenOffers_unfold.
  replace (existingOffers out1) with (existingOffers args)
    by (symmetry; apply existingOffers_repairChannel).
  set (first1 := match existingOffers args with
                 | Some (first, rest) => JObj (mergeMissing out1 fl first) :: rest
                 | None => [JObj (copyKeys out1 fl ∅)]
                 end).
  set (out2 := deleteKeys fl (<[str "offers" := JArr first1]> out1)).
  assert (Hoffers_fl : str "offers" ∉ fl).
  { intros Hin. apply Hfl in Hin as [Hin _].
    now destruct (offerKeys_other _ Hin) as [Hne _]. }
  assert (Hout2 : out2 !! str "offers" = Some (JArr first1)).
  { unfold out2. rewrite deleteKeys_lookup, bool_decide_eq_false_2 by exact Hoffers_fl.
    apply lookup_insert_eq. }
  rewrite Hout2.
  assert (Hout1 : forall k v, k ∈ offerKeys -> args !! k = Some v -> getProp out1 k = v).
  { intros k v Hk Hv. destruct (offerKeys_other k Hk) as (_ & Hc & Hcs).
    unfold getProp, out1. rewrite repairChannel_lookup by assumption. now rewrite Hv. }
  assert (Hval : forall k,
             (if bool_decide (k ∈ fl) then Some (getProp out1 k) else None)
             = if bool_decide (k ∈ offerKeys) then args !! k else None).
  { intros k. destruct (decide (k ∈ fl)) as [Hin | Hin].
    - rewrite (bool_decide_eq_true_2 _ Hin). apply Hfl in Hin as [Hk [v Hv]].
      rewrite (bool_decide_eq_true_2 _ Hk), Hv. f_equal. now apply Hout1.
    - rewrite (bool_decide_eq_false_2 _ Hin).
      destruct (decide (k ∈ offerKeys)) as [Hk | Hk].
      + rewrite (bool_decide_eq_true_2 _ Hk). symmetry. apply eq_None_not_Some.
        intros Hs. apply Hin, Hfl. auto.
      + now rewrite (bool_decide_eq_false_2 _ Hk). }
  assert (Htop : forall k, k ∈ offerKeys ->
                   (<[str "offers" := JArr (map coerceOffer first1)]> out2) !! k = None).
  { intros k Hk. destruct (offerKeys_other k Hk) as (Ho & Hc & Hcs).
    rewrite lookup_insert_ne by congruence. unfold out2. rewrite deleteKeys_lookup.
    destruct (decide (k ∈ fl)) as [Hin | Hin].
    - now rewrite bool_decide_eq_true_2.
    - rewrite bool_decide_eq_false_2 by exact Hin.
      rewrite lookup_insert_ne by congruence.
      unfold out1. rewrite repairChannel_lookup by assumption.
      apply eq_None_not_Some. intros Hsome. apply Hin, Hfl. auto. }
  assert (Hframe : forall k, k ∉ offerKeys -> k <> str "offers" ->
                     k <> str "channel" -> k <> str "channels" ->
                     (<[str "offers" := JArr (map coerceOffer first1)]> out2) !! k
                     = args !! k).
  { intros k Hk Ho Hc Hcs. rewrite lookup_insert_ne by congruence.
    unfold out2. rewrite deleteKeys_lookup, bool_decide_eq_false_2.
    - rewrite lookup_insert_ne by congruence. now apply repairChannel_lookup.
    - intros Hin. apply Hfl in Hin. tauto. }
  subst first1. destruct (existingOffers args) as [[first0 rest0]|] eqn:Hex.
  - destruct (coerceOffer_object (mergeMissing out1 fl first0)) as (first & Efirst & Hfirst).
    exists (<[str "offers" := JArr (map coerceOffer (JObj (mergeMissing out1 fl first0) :: rest0))]> out2),
      first, (map coerceOffer rest0).
    split; [reflexivity|].
    split; [rewrite lookup_insert_eq; cbn [map]; now rewrite Efirst|].
    split; [exact Htop|].
    split; [|split; [split; [reflexivity|] | exact Hframe]].
    + intros k v Hk Hv. rewrite Hfirst, mergeMissing_lookup.
      destruct (first0 !! k) as [v0|]; [reflexivity|].
      rewrite bool_decide_eq_true_2 by (apply Hfl; eauto).
      cbn. now rewrite (Hout1 k v Hk Hv).
    + assert (Hfull : forall k,
                first !! k
                = coerceKey k <$> match first0 !! k with
                                  | Some v0 => Some v0
                                  | None => if bool_decide (k ∈ offerKeys)
                                            then args !! k else None
                                  end).
      { intros k. rewrite Hfirst, mergeMissing_lookup.
        destruct (first0 !! k); [reflexivity|]. now rewrite Hval. }
      split; [|split; [|exact Hfull]].
      * intros k v1 Hv1. rewrite Hfull, Hv1. reflexivity.
      * intros k Hsome. rewrite Hfull in Hsome.
        destruct (first0 !! k) as [v0|]; [left; eauto | right].
        destruct (decide (k ∈ offerKeys)) as [Hk | Hk].
        -- rewrite (bool_decide_eq_true_2 _ Hk) in Hsome. split; [exact Hk|].
           destruct (args !! k); [eauto | destruct Hsome; discriminate].
        -- rewrite (bool_decide_eq_false_2 _ Hk) in Hsome. destruct Hsome; discriminate.
  - destruct (coerceOffer_object (copyKeys out1 fl ∅)) as (first & Efirst & Hfirst).
    exists (<[str "offers" := JArr (map coerceOffer [JObj (copyKeys out1 fl ∅)])]> out2),
      first, [].
    split; [reflexivity|].
    split; [rewrite lookup_insert_eq; cbn [map]; now rewrite Efirst|].
    split; [exact Htop|].
    split; [|split; [split; [reflexivity|] | exact Hframe]].
    + intros k v Hk Hv. rewrite Hfirst, copyKeys_lookup.
      rewrite bool_decide_eq_true_2 by (apply Hfl; eauto).
      cbn. now rewrite (Hout1 k v Hk Hv).
    + split.
      * intros k Hsome. rewrite Hfirst, copyKeys_lookup in Hsome.
        destruct (decide (k ∈ fl)) as [Hin | Hin]; [now apply Hfl|].
        rewrite bool_decide_eq_false_2, lookup_empty in Hsome by exact Hin.
        cbn in Hsome. now destruct Hsome.
      * intros k. rewrite Hfirst, copyKeys_lookup, <- Hval.
        destruct (bool_decide (k ∈ fl)); [reflexivity|]. now rewrite lookup_empty.
Qed.

Lemma flattened_offer_keys_are_moved_witness :
  let args : gmap jsstring jsval :=
    {[ str "name" := JStr (str "maker:alice");
       str "pair" := JStr (str "BTC_LN/USDT_SOL");
       str "usdt_amount" := JStr (str "0.12") ]} in
  (exists k, k ∈ offerKeys /\ is_Some (args !! k))
  /\ exists out first rest,
       repairToolArguments (str "intercomswap_offer_post") (JObj args) = JObj out
       /\ out !! str "offers" = Some (JArr (JObj first :: rest))
       /\ out !! str "usdt_amount" = None
       /\ first !! str "usdt_amount" = Some (JStr (str "120000"))
       /\ rest = [].
Proof.
  intros args.
  assert (H : exists k, k ∈ offerKeys /\ is_Some (args !! k)).
  { exists (str "pair"). split; [|now exists (JStr (str "BTC_LN/USDT_SOL"))].
    unfold offerKeys. apply elem_of_cons. now left. }
  split; [exact H|].
  destruct (flattened_offer_keys_are_moved args H)
    as (out & first & rest & E & Ho & Htop & Hmoved & Hshape & _).
  assert (Hu : str "usdt_amount" ∈ offerKeys).
  { unfold offerKeys. rewrite !elem_of_cons. tauto. }
  exists out, first, rest. split; [exact E|]. split; [exact Ho|].
  split; [exact (Htop _ Hu)|].
  split; [exact (Hmoved _ (JStr (str "0.12")) Hu eq_refl)|].
  exact (proj1 Hshape).
Defined.

End RepairFacts.

(* --------------------------------------------------------------------- *)
(** ** [repairToolArguments]: the shape of the result                     *)
(* --------------------------------------------------------------------- *)

Module RepairShapeFacts.
Import JS Repair RepairShape RepairFacts.

(** ** The channel repair *)

Lemma repairChannel_unfold a :
  repairChannel a
  = if channelRepairApplies a
    then delete (str "channel")
           (<[str "channels" :=
                JArr [JStr (trim match a !! str "channel" with
                                 | Some (JStr c) => c
                                 | _ => []
                                 end)]]> a)
    else a.
Proof.
  unfold repairChannel, channelRepairApplies.
  destruct (a !! str "channels") as [[ | | | | | | ]|];
    destruct (a !! str "channel") as [[ | | | | c | | ]|]; try reflexivity;
    destruct (isEmpty (trim c)); reflexivity.
Qed.

Lemma channelRepairApplies_ext a b :
  a !! str "channels" = b !! str "channels" ->
  a !! str "channel" = b !! str "channel" ->
  channelRepairApplies a = channelRepairApplies b.
Proof. unfold channelRepairApplies. now intros -> ->. Qed.

Lemma channelRepairApplies_done a : channelRepairApplies (repairChannel a) = false.
Proof.
  rewrite repairChannel_unfold.
  destruct (channelRepairApplies a) eqn:E; [|exact E].
  unfold channelRepairApplies.
  rewrite lookup_delete_ne by discriminate. now rewrite lookup_insert_eq.
Qed.

Lemma repairChannel_fixed a : channelRepairApplies a = false -> repairChannel a = a.
Proof. intros H. now rewrite repairChannel_unfold, H. Qed.

(** ** The result of the offer_post branch, key by key *)

Lemma flattenedKeys_elem args k :
  k ∈ flattenedKeys args <-> k ∈ offerKeys /\ is_Some (args !! k).
Proof. apply flattened_elem. Qed.

Lemma flattenedKeys_nil args :
  (forall k, k ∈ offerKeys -> args !! k = None) -> flattenedKeys args = [].
Proof.
  intros H. destruct (flattenedKeys args) as [|k l] eqn:E; [reflexivity|].
  assert (Hin : k ∈ flattenedKeys args) by (rewrite E; apply elem_of_cons; now left).
  apply flattenedKeys_elem in Hin as [Hk [v Hv]]. rewrite (H k Hk) in Hv. discriminate.
Qed.

Lemma repairOfferPost_offers args :
  repairOfferPost args !! str "offers" = coerceOffers (flattenedOffers args).
Proof.
  unfold repairOfferPost, flattenedOffers. fold (flattenedKeys args).
  destruct (0 <? length (flattenedKeys args))%nat eqn:Hlen.
  - rewrite flattenOffers_unfold, existingOffers_repairChannel.
    set (l := match existingOffers args with Some _ => _ | None => _ end).
    assert (Ho : deleteKeys (flattenedKeys args)
                   (<[str "offers" := JArr l]> (repairChannel args)) !! str "offers"
                 = Some (JArr l)).
    { rewrite deleteKeys_lookup, bool_decide_eq_false_2.
      - apply lookup_insert_eq.
      - intros Hin. apply flattenedKeys_elem in Hin as [Hin _].
        now destruct (offerKeys_other _ Hin). }
    rewrite Ho. cbn [coerceOffers]. apply lookup_insert_eq.
  - assert (Hl : repairChannel args !! str "offers" = args !! str "offers")
      by (apply repairChannel_lookup; discriminate).
    rewrite <- Hl.
    destruct (repairChannel args !! str "offers") as [[ | | | | | l | ]|] eqn:E;
      cbn [coerceOffers]; try exact E.
    apply lookup_insert_eq.
Qed.

Lemma repairOfferPost_other args k :
  k <> str "offers" ->
  repairOfferPost args !! k
  = if bool_decide (k ∈ offerKeys) then None else repairChannel args !! k.
Proof.
  intros Hk. unfold repairOfferPost. fold (flattenedKeys args).
  set (out2 := if (0 <? length (flattenedKeys args))%nat
               then flattenOffers (repairChannel args) (flattenedKeys args)
               else repairChannel args).
  assert (H2 : out2 !! k
               = if bool_decide (k ∈ offerKeys) then None else repairChannel args !! k).
  { unfold out2. destruct (0 <? length (flattenedKeys args))%nat eqn:Hlen.
    - rewrite flattenOffers_unfold, deleteKeys_lookup.
      destruct (decide (k ∈ flattenedKeys args)) as [Hin | Hin].
      + rewrite bool_decide_eq_true_2 by exact Hin.
        apply flattenedKeys_elem in Hin as [Hin _].
        now rewrite bool_decide_eq_true_2.
      + rewrite bool_decide_eq_false_2 by exact Hin.
        rewrite lookup_insert_ne by congruence.
        destruct (decide (k ∈ offerKeys)) as [Hoff | Hoff].
        * rewrite bool_decide_eq_true_2 by exact Hoff.
          destruct (offerKeys_other k Hoff) as (_ & Hc & Hcs).
          rewrite repairChannel_lookup by assumption.
          apply eq_None_not_Some. intros Hs. apply Hin, flattenedKeys_elem. auto.
        * now rewrite bool_decide_eq_false_2.
    - destruct (decide (k ∈ offerKeys)) as [Hoff | Hoff].
      + rewrite bool_decide_eq_true_2 by exact Hoff.
        destruct (offerKeys_other k Hoff) as (_ & Hc & Hcs).
        rewrite repairChannel_lookup by assumption.
        apply eq_None_not_Some. intros Hs.
        assert (Hin : k ∈ flattenedKeys args) by (apply flattenedKeys_elem; auto).
        apply Nat.ltb_ge in Hlen. destruct (flattenedKeys args); [|simpl in Hlen; lia].
        now apply elem_of_nil in Hin.
      + now rewrite bool_decide_eq_false_2. }
  destruct (out2 !! str "offers") as [[ | | | | | l | ]|]; try exact H2.
  rewrite lookup_insert_ne by congruence. exact H2.
Qed.


Lemma repairOfferPost_channel_keys args k :
  k = str "channel" \/ k = str "channels" ->
  repairOfferPost args !! k = repairChannel args !! k.
Proof.
  intros Hk. rewrite repairOfferPost_other by (destruct Hk as [-> | ->]; discriminate).
  rewrite bool_decide_eq_false_2; [reflexivity|].
  intros Hin. destruct (offerKeys_other k Hin) as (_ & Hc & Hcs).
  destruct Hk; contradiction.
Qed.

(** X1. The channel repair of offer_post: an existing [channels] array
    is never touched; otherwise a [channel] string that is not blank
    becomes the one-element array [channels] of its trimmed text,
    replacing whatever [channels] held, and [channel] is removed; a
    blank [channel], or one that is not a string, is left where it
    is. *)
Theorem channel_becomes_channels (args : gmap jsstring jsval) :
  exists out,
    repairToolArguments (str "intercomswap_offer_post") (JObj args) = JObj out
    /\ (forall l, args !! str "channels" = Some (JArr l) ->
          out !! str "channels" = Some (JArr l)
          /\ out !! str "channel" = args !! str "channel")
    /\ (forall c,
          (forall l, args !! str "channels" <> Some (JArr l)) ->
          args !! str "channel" = Some (JStr c) ->
          if isEmpty (trim c)
          then out !! str "channels" = args !! str "channels"
               /\ out !! str "channel" = Some (JStr c)
          else out !! str "channels" = Some (JArr [JStr (trim c)])
               /\ out !! str "channel" = None)
    /\ ((forall c, args !! str "channel" <> Some (JStr c)) ->
          out !! str "channels" = args !! str "channels"
          /\ out !! str "channel" = args !! str "channel").
Proof.
  exists (repairOfferPost args). split; [reflexivity|].
  rewrite !repairOfferPost_channel_keys by auto.
  rewrite repairChannel_unfold. unfold channelRepairApplies.
  split; [|split].
  - intros l Hl. rewrite Hl. auto.
  - intros c Hnot Hc. rewrite Hc.
    destruct (args !! str "channels") as [[ | | | | | l | ]|] eqn:E;
      try (exfalso; exact (Hnot l eq_refl));
      destruct (isEmpty (trim c)); cbn [negb];
      rewrite ?lookup_delete_eq, ?lookup_delete_ne, ?lookup_insert_eq by discriminate;
      auto.
  - intros Hnot.
    destruct (args !! str "channels") as [[ | | | | | l | ]|] eqn:E;
      destruct (args !! str "channel") as [[ | | | | c | | ]|] eqn:Ec;
      try (exfalso; exact (Hnot c eq_refl)); auto.
Qed.

(** X2. What offer_post never does to the top level: the offer keys
    are absent from the result whatever the arguments were, and every
    property other than them, [offers], [channel] and [channels] is
    returned with the value it had (none is added, none removed). *)
Theorem offer_post_top_level (args : gmap jsstring jsval) :
  exists out,
    repairToolArguments (str "intercomswap_offer_post") (JObj args) = JObj out
    /\ (forall k, k ∈ offerKeys -> out !! k = None)
    /\ (forall k, k ∉ offerKeys -> k <> str "offers" ->
          k <> str "channel" -> k <> str "channels" -> out !! k = args !! k).
Proof.
  exists (repairOfferPost args). split; [reflexivity|]. split.
  - intros k Hk. destruct (offerKeys_other k Hk) as (Ho & _ & _).
    rewrite repairOfferPost_other by exact Ho. now rewrite bool_decide_eq_true_2.
  - intros k Hk Ho Hc Hcs. rewrite repairOfferPost_other by exact Ho.
    rewrite bool_decide_eq_false_2 by exact Hk. now apply repairChannel_lookup.
Qed.

Lemma flattenedOffers_none args :
  (forall k, k ∈ offerKeys -> args !! k = None) ->
  flattenedOffers args = args !! str "offers".
Proof. intros H. unfold flattenedOffers. now rewrite (flattenedKeys_nil args H). Qed.

(** X3. offer_post with no offer key at the top level: an [offers]
    array keeps its length and order, each element going through the
    callback: an element that is not an object, or an object without
    [usdt_amount], is returned as it is, and in an object with
    [usdt_amount] that property is coerced and every other one is
    kept. An [offers] that is not an array, or is missing, is left as
    it is: no array is made up. *)
Theorem offers_are_coerced_in_place (args : gmap jsstring jsval) :
  (forall k, k ∈ offerKeys -> args !! k = None) ->
  exists out,
    repairToolArguments (str "intercomswap_offer_post") (JObj args) = JObj out
    /\ (forall l, args !! str "offers" = Some (JArr l) ->
          exists l',
            out !! str "offers" = Some (JArr l')
            /\ length l' = length l
            /\ forall i o, l !! i = Some o ->
                 exists o', l' !! i = Some o'
                   /\ match o with
                      | JObj fields =>
                          exists fields',
                            o' = JObj fields'
                            /\ forall k, fields' !! k = coerceKey k <$> fields !! k
                      | _ => o' = o
                      end)
    /\ ((forall l, args !! str "offers" <> Some (JArr l)) ->
          out !! str "offers" = args !! str "offers").
Proof.
  intros Hnone. exists (repairOfferPost args). split; [reflexivity|].
  rewrite repairOfferPost_offers, (flattenedOffers_none args Hnone). split.
  - intros l Hl. rewrite Hl. cbn [coerceOffers].
    exists (map coerceOffer l). split; [reflexivity|].
    split; [apply length_map|].
    intros i o Hi. exists (coerceOffer o). split.
    + rewrite list_lookup_fmap. now rewrite Hi.
    + destruct o as [ | | | | | | fields]; try reflexivity.
      destruct (coerceOffer_object fields) as (fields' & -> & Hf). eauto.
  - intros Hnot. destruct (args !! str "offers") as [[ | | | | | l | ]|] eqn:E;
      try reflexivity. exfalso. exact (Hnot l eq_refl).
Qed.

Lemma offers_are_coerced_in_place_witness :
  let args : gmap jsstring jsval :=
    {[ str "name" := JStr (str "maker:alice");
       str "offers" := JArr [JObj {[ str "usdt_amount" := JStr (str "0.12") ]};
                             JNull] ]} in
  (forall k, k ∈ offerKeys -> args !! k = None)
  /\ exists out,
       repairToolArguments (str "intercomswap_offer_post") (JObj args) = JObj out
       /\ out !! str "offers"
          = Some (JArr [JObj {[ str "usdt_amount" := JStr (str "120000") ]}; JNull]).
Proof.
  intros args.
  assert (H : forall k, k ∈ offerKeys -> args !! k = None).
  { intros k Hk. unfold offerKeys in Hk. rewrite !elem_of_cons, elem_of_nil in Hk.
    repeat destruct Hk as [Hk | Hk]; try contradiction; subst k;
      vm_compute; reflexivity. }
  split; [exact H|].
  destruct (offers_are_coerced_in_place args H) as (out & E & _ & _).
  exists out. split; [exact E|].
  injection E as <-. vm_compute. reflexivity.
Defined.


(** ** Repairing twice *)

Lemma hasKey_insert (k : jsstring) (v : jsval) (o : gmap jsstring jsval) : hasKey k (<[k := v]> o) = true.
Proof. unfold hasKey. apply bool_decide_eq_true_2. rewrite lookup_insert_eq. eauto. Qed.

Lemma getProp_insert (k : jsstring) (v : jsval) (o : gmap jsstring jsval) : getProp (<[k := v]> o) k = v.
Proof. unfold getProp. now rewrite lookup_insert_eq. Qed.

Lemma coerced_field_idempotent (key : jsstring) (d : nat) (o : gmap jsstring jsval) :
  let step o := if hasKey key o
                then <[key := decimalToAtomicString (getProp o key) d]> o else o in
  step (step o) = step o.
Proof.
  cbn zeta. destruct (hasKey key o) eqn:E; rewrite ?E; [|reflexivity].
  now rewrite hasKey_insert, getProp_insert, decimalToAtomicString_idempotent,
    insert_insert_eq.
Qed.

Lemma coerceOffer_idempotent o : coerceOffer (coerceOffer o) = coerceOffer o.
Proof.
  destruct o as [ | | | | | | fields]; try reflexivity.
  unfold coerceOffer, coerceUsdtAtomic.
  destruct (hasKey (str "usdt_amount") fields) eqn:E; rewrite ?E; [|reflexivity].
  now rewrite hasKey_insert, getProp_insert, decimalToAtomicString_idempotent,
    insert_insert_eq.
Qed.

Lemma coerceOffers_idempotent v : coerceOffers (coerceOffers v) = coerceOffers v.
Proof.
  destruct v as [[ | | | | | l | ]|]; try reflexivity.
  cbn [coerceOffers]. rewrite map_map. do 2 f_equal.
  apply map_ext. intros o. apply coerceOffer_idempotent.
Qed.

Lemma repairOfferPost_no_offer_keys args k :
  k ∈ offerKeys -> repairOfferPost args !! k = None.
Proof.
  intros Hk. destruct (offerKeys_other k Hk) as (Ho & _ & _).
  rewrite repairOfferPost_other by exact Ho. now rewrite bool_decide_eq_true_2.
Qed.

Lemma repairOfferPost_idempotent args :
  repairOfferPost (repairOfferPost args) = repairOfferPost args.
Proof.
  apply map_eq. intros k. destruct (decide (k = str "offers")) as [-> | Hk].
  - rewrite (repairOfferPost_offers (repairOfferPost args)).
    rewrite flattenedOffers_none by (intros k Hk; now apply repairOfferPost_no_offer_keys).
    rewrite repairOfferPost_offers. apply coerceOffers_idempotent.
  - rewrite (repairOfferPost_other (repairOfferPost args)) by exact Hk.
    rewrite (repairOfferPost_other args) by exact Hk.
    destruct (bool_decide (k ∈ offerKeys)) eqn:Hoff; [reflexivity|].
    rewrite repairChannel_fixed.
    + rewrite repairOfferPost_other by exact Hk. now rewrite Hoff.
    + rewrite <- (channelRepairApplies_done args).
      apply channelRepairApplies_ext; apply repairOfferPost_channel_keys; auto.
Qed.

(** X4. Repairing is idempotent: for every tool name and every
    argument value, repairing repaired arguments changes nothing. *)
Theorem repair_is_idempotent (toolName : jsstring) (args : jsval) :
  repairToolArguments toolName (repairToolArguments toolName args)
  = repairToolArguments toolName args.
Proof.
  destruct args as [ | | | | | | fields]; try reflexivity.
  unfold repairToolArguments.
  destruct (toolIs toolName "intercomswap_offer_post").
  { now rewrite repairOfferPost_idempotent. }
  destruct (toolIs toolName "intercomswap_rfq_post"
            || toolIs toolName "intercomswap_quote_post"
            || toolIs toolName "intercomswap_terms_post").
  { f_equal. apply (coerced_field_idempotent (str "usdt_amount") 6). }
  destruct (toolIs toolName "intercomswap_sol_airdrop"
            || toolIs toolName "intercomswap_sol_transfer_sol").
  { f_equal. apply (coerced_field_idempotent (str "lamports") 9). }
  reflexivity.
Qed.

(** ** The lamports tools *)

(** X5. For sol_airdrop and sol_transfer_sol the result is an object
    in which [lamports], when present, is the value coerced with nine
    decimals, and every other property, [usdt_amount] included, keeps
    its value; no property is added or removed. *)
Theorem lamports_tools_coerce_lamports_only (toolName : jsstring)
    (fields : gmap jsstring jsval) :
  toolName = str "intercomswap_sol_airdrop"
  \/ toolName = str "intercomswap_sol_transfer_sol" ->
  exists out,
    repairToolArguments toolName (JObj fields) = JObj out
    /\ (forall k, k <> str "lamports" -> out !! k = fields !! k)
    /\ out !! str "lamports" = coerceSolLamports <$> fields !! str "lamports".
Proof.
  intros Htool. unfold repairToolArguments.
  assert (Hoffer : toolIs toolName "intercomswap_offer_post" = false)
    by (apply toolIs_false; destruct Htool as [-> | ->]; discriminate).
  assert (Hthree : toolIs toolName "intercomswap_rfq_post"
                   || toolIs toolName "intercomswap_quote_post"
                   || toolIs toolName "intercomswap_terms_post" = false).
  { rewrite !orb_false_iff.
    repeat split; apply toolIs_false; destruct Htool as [-> | ->]; discriminate. }
  assert (Htwo : toolIs toolName "intercomswap_sol_airdrop"
                 || toolIs toolName "intercomswap_sol_transfer_sol" = true).
  { apply orb_true_iff. destruct Htool as [-> | ->]; [left | right]; now apply toolIs_true. }
  rewrite Hoffer, Hthree, Htwo. cbn zeta.
  eexists. split; [reflexivity|]. split.
  - intros k Hk. now apply coerced_field_lookup.
  - unfold hasKey, getProp. destruct (fields !! str "lamports") as [v|] eqn:E.
    + rewrite bool_decide_eq_true_2 by eauto. now rewrite lookup_insert_eq.
    + rewrite bool_decide_eq_false_2 by (intros [? ?]; discriminate). now rewrite E.
Qed.

Lemma lamports_tools_coerce_lamports_only_witness :
  let fields : gmap jsstring jsval :=
    {[ str "to" := JStr (str "11111111111111111111111111111111");
       str "usdt_amount" := JStr (str "0.12");
       str "lamports" := JStr (str "0.01") ]} in
  exists out,
    repairToolArguments (str "intercomswap_sol_transfer_sol") (JObj fields) = JObj out
    /\ out !! str "usdt_amount" = Some (JStr (str "0.12"))
    /\ out !! str "lamports" = Some (JStr (str "10000000")).
Proof.
  intros fields.
  destruct (lamports_tools_coerce_lamports_only
              (str "intercomswap_sol_transfer_sol") fields) as (out & E & Hk & Hl).
  { right. reflexivity. }
  exists out. split; [exact E|]. split.
  - rewrite Hk by discriminate. vm_compute. reflexivity.
  - rewrite Hl. vm_compute. reflexivity.
Defined.

(** ** Arguments that need no repair *)

Lemma atomicAmount_fixed (fields : gmap jsstring jsval) (key : jsstring) (d : nat) :
  atomicAmount (fields !! key) ->
  (if hasKey key fields
   then <[key := decimalToAtomicString (getProp fields key) d]> fields
   else fields) = fields.
Proof.
  unfold atomicAmount, hasKey, getProp. intros H.
  destruct (fields !! key) as [[ | | | | s | | ]|] eqn:E; try contradiction.
  - rewrite bool_decide_eq_true_2 by eauto.
    change (default JUndefined (Some ?x)) with x. cbn [decimalToAtomicString].
    rewrite decimalStringToAtomic_digits by exact H. now apply insert_id.
  - now rewrite bool_decide_eq_false_2 by (intros [? ?]; discriminate).
Qed.

Lemma atomicOffer_fixed o : atomicOffer o -> coerceOffer o = o.
Proof.
  destruct o as [ | | | | | | fields]; try reflexivity.
  cbn [atomicOffer coerceOffer]. intros H. unfold coerceUsdtAtomic.
  pose proof (atomicAmount_fixed fields (str "usdt_amount") 6 H) as Hf.
  destruct (hasKey (str "usdt_amount") fields); [now rewrite Hf | reflexivity].
Qed.

Lemma atomicOffers_fixed l : Forall atomicOffer l -> map coerceOffer l = l.
Proof.
  induction 1 as [|o l' Ho _ IH]; [reflexivity|].
  cbn [map]. now rewrite IH, atomicOffer_fixed.
Qed.

(** X6. An offer_post call that is already in the expected form is
    returned as it is: when the channel repair does not apply, no
    offer key stands at the top level, and every offer object of an
    [offers] array has no [usdt_amount] or a digit string there, the
    result is the argument object, property for property. *)
Theorem atomic_offer_post_is_unchanged (args : gmap jsstring jsval) :
  channelRepairApplies args = false ->
  (forall k, k ∈ offerKeys -> args !! k = None) ->
  (forall l, args !! str "offers" = Some (JArr l) -> Forall atomicOffer l) ->
  repairToolArguments (str "intercomswap_offer_post") (JObj args) = JObj args.
Proof.
  intros Hch Hkeys Hoffers.
  change (JObj (repairOfferPost args) = JObj args). f_equal.
  apply map_eq. intros k. destruct (decide (k = str "offers")) as [-> | Hk].
  - rewrite repairOfferPost_offers, flattenedOffers_none by exact Hkeys.
    destruct (args !! str "offers") as [[ | | | | | l | ]|] eqn:E; try reflexivity.
    cbn [coerceOffers]. do 2 f_equal.
    apply atomicOffers_fixed, Hoffers. reflexivity.
  - rewrite repairOfferPost_other by exact Hk.
    rewrite repairChannel_fixed by exact Hch.
    destruct (decide (k ∈ offerKeys)) as [Hoff | Hoff].
    + rewrite bool_decide_eq_true_2 by exact Hoff. now rewrite Hkeys.
    + now rewrite bool_decide_eq_false_2.
Qed.


Lemma atomic_offer_post_is_unchanged_witness :
  let args : gmap jsstring jsval :=
    {[ str "channels" := JArr [JStr (str "0000intercomswapbtcusdt")];
       str "channel" := JStr (str "0000intercomswapbtcusdt");
       str "name" := JStr (str "maker:alice");
       str "offers" := JArr [JObj {[ str "pair" := JStr (str "BTC_LN/USDT_SOL");
                                     str "usdt_amount" := JStr (str "120000") ]};
                             JObj {[ str "have" := JStr (str "USDT_SOL") ]}] ]} in
  repairToolArguments (str "intercomswap_offer_post") (JObj args) = JObj args.
Proof.
  intros args. apply atomic_offer_post_is_unchanged.
  - vm_compute. reflexivity.
  - intros k Hk. unfold offerKeys in Hk. rewrite !elem_of_cons, elem_of_nil in Hk.
    repeat destruct Hk as [Hk | Hk]; try contradiction; subst k;
      vm_compute; reflexivity.
  - intros l Hl.
    assert (E : args !! str "offers"
                = Some (JArr [JObj {[ str "pair" := JStr (str "BTC_LN/USDT_SOL");
                                      str "usdt_amount" := JStr (str "120000") ]};
                              JObj {[ str "have" := JStr (str "USDT_SOL") ]}]))
      by (vm_compute; reflexivity).
    rewrite E in Hl. injection Hl as <-.
    constructor; [|constructor; [|constructor]]; cbn [atomicOffer].
    + assert (E1 : ({[ str "pair" := JStr (str "BTC_LN/USDT_SOL");
                       str "usdt_amount" := JStr (str "120000") ]}
                      : gmap jsstring jsval) !! str "usdt_amount"
                   = Some (JStr (str "120000"))) by (vm_compute; reflexivity).
      rewrite E1. cbn [atomicAmount]. apply digits_test. vm_compute. reflexivity.
    + assert (E2 : ({[ str "have" := JStr (str "USDT_SOL") ]}
                      : gmap jsstring jsval) !! str "usdt_amount" = None)
        by (vm_compute; reflexivity).
      rewrite E2. exact I.
Defined.

(** ** Numbers with a fractional part *)

Lemma Number_toFixed_small (m : positive) (e : Z) (f : nat) :
  magnitudeFloor m e < 10 ^ 21 ->
  Number_toFixed (S754_finite false m e) f
  = let ds0 := decimalDigits (Z.to_N (roundedScaled m e f)) in
    let ds := repeat ZERO (S f - length ds0) ++ ds0 in
    if (f =? 0)%nat then ds
    else firstn (length ds - f) ds ++ DOT :: skipn (length ds - f) ds.
Proof.
  intros H. apply Z.leb_gt in H. unfold Number_toFixed, roundedScaled.
  rewrite H. reflexivity.
Qed.

Lemma roundedScaled_nonneg m e f : 0 <= roundedScaled m e f.
Proof.
  unfold roundedScaled. assert (0 < 10 ^ Z.of_nat f) by (apply Z.pow_pos_nonneg; lia).
  destruct (0 <=? e) eqn:He.
  - apply Z.leb_le in He. assert (0 < 2 ^ e) by (apply Z.pow_pos_nonneg; lia). nia.
  - apply Z.leb_gt in He. assert (0 < 2 ^ (- e)) by (apply Z.pow_pos_nonneg; lia).
    apply Z.div_pos; nia.
Qed.

Lemma forallb_repeat_zero k : forallb isDigit (repeat ZERO k) = true.
Proof. induction k as [|k IH]; [reflexivity | exact IH]. Qed.

Lemma forallb_firstn_skipn (f : N -> bool) n l :
  forallb f l = true -> forallb f (firstn n l) = true /\ forallb f (skipn n l) = true.
Proof.
  intros H. rewrite <- (firstn_skipn n l), forallb_app in H.
  now apply andb_true_iff in H.
Qed.

Lemma BigInt_toString_digits b : 0 <= b -> BigInt_toString b = decimalDigits (Z.to_N b).
Proof. intros H. unfold BigInt_toString. now rewrite (proj2 (Z.ltb_ge b 0) H). Qed.

Lemma Number_toFixed_converts (m : positive) (e : Z) (d : nat) :
  magnitudeFloor m e < 10 ^ 21 ->
  decimalStringToAtomic (Number_toFixed (S754_finite false m e) d) d
  = JStr (decimalDigits (Z.to_N (roundedScaled m e d))).
Proof.
  intros Hlt. rewrite (Number_toFixed_small m e d Hlt). cbv zeta.
  pose proof (roundedScaled_nonneg m e d) as Hn.
  set (n := roundedScaled m e d) in *.
  set (ds0 := decimalDigits (Z.to_N n)).
  pose proof (decimalDigits_digits (Z.to_N n)) as Hds0. fold ds0 in Hds0.
  destruct (digits_inv ds0 Hds0) as [Hne0 Hall0].
  assert (Hlen0 : (1 <= length ds0)%nat) by (destruct ds0; [contradiction | simpl; lia]).
  set (ds := repeat ZERO (S d - length ds0) ++ ds0).
  assert (Hlen : (S d <= length ds)%nat).
  { unfold ds. rewrite length_app, repeat_length. lia. }
  assert (Hall : forallb isDigit ds = true).
  { unfold ds. now rewrite forallb_app, forallb_repeat_zero, Hall0. }
  assert (HB : BigInt ds = n).
  { unfold ds, ds0. rewrite BigInt_app, BigInt_zeros, BigInt_decimalDigits. lia. }
  destruct (d =? 0)%nat eqn:Hd.
  - apply Nat.eqb_eq in Hd. subst d.
    replace ds with ds0.
    + now apply decimalStringToAtomic_digits.
    + unfold ds. now replace (1 - length ds0)%nat with 0%nat by lia.
  - apply Nat.eqb_neq in Hd.
    set (ip := firstn (length ds - d) ds). set (fp := skipn (length ds - d) ds).
    destruct (forallb_firstn_skipn isDigit (length ds - d) ds Hall) as [Hai Haf].
    fold ip in Hai. fold fp in Haf.
    assert (Hlip : length ip = (length ds - d)%nat)
      by (unfold ip; rewrite length_firstn; lia).
    assert (Hlfp : length fp = d) by (unfold fp; rewrite length_skipn; lia).
    assert (Hip : digits ip).
    { apply digits_intro; [|exact Hai]. intros E. rewrite E in Hlip. simpl in Hlip. lia. }
    assert (Hfp : digits fp).
    { apply digits_intro; [|exact Haf]. intros E. rewrite E in Hlfp. simpl in Hlfp. lia. }
    rewrite decimalStringToAtomic_token.
    rewrite strippedToken_artifactFree by (now apply fraction_artifactFree).
    change (ip ++ DOT :: fp) with ([] ++ ip ++ DOT :: fp).
    rewrite convertToken_fraction by auto.
    rewrite Hlfp, Nat.ltb_irrefl, Nat.sub_diag, Z.pow_0_r, Z.mul_1_r.
    assert (E : BigInt ip * 10 ^ Z.of_nat d + BigInt fp = n).
    { rewrite <- HB, <- (firstn_skipn (length ds - d) ds) at 1.
      fold ip fp. now rewrite BigInt_app, Hlfp. }
    rewrite E. now rewrite BigInt_toString_digits.
Qed.

(** X7. A positive number with a fractional part (below [10^21], and
    [decimals] in the range [toFixed] accepts) is turned into the digit
    string of the integer nearest to the number times [10^decimals],
    the larger one on a tie: digits beyond the declared decimals are
    rounded, not refused as they are in a string. *)
Theorem fractional_number_is_rounded (m : positive) (e : Z) (decimals : nat) :
  (decimals <= 100)%nat ->
  Number_isInteger (S754_finite false m e) = false ->
  magnitudeFloor m e < 10 ^ 21 ->
  let n := roundedScaled m e decimals in
  decimalToAtomicString (JNum (S754_finite false m e)) decimals
  = JStr (decimalDigits (Z.to_N n))
  /\ e < 0 /\ 0 <= n
  /\ 2 * 2 ^ (- e) * n <= 2 * (Z.pos m * 10 ^ Z.of_nat decimals) + 2 ^ (- e)
                        < 2 * 2 ^ (- e) * (n + 1).
Proof.
  intros _ Hint Hlt n. cbn [Number_isInteger] in Hint.
  apply orb_false_iff in Hint as [He Hm]. apply Z.leb_gt in He.
  split; [|split; [exact He | split; [apply roundedScaled_nonneg|]]].
  - cbn [decimalToAtomicString Number_isFinite negb Number_isInteger].
    rewrite (proj2 (Z.leb_gt 0 e) He), Hm. cbn [orb andb].
    now apply Number_toFixed_converts.
  - unfold n, roundedScaled. rewrite (proj2 (Z.leb_gt 0 e) He).
    assert (Hq : 0 < 2 * 2 ^ (- e))
      by (assert (0 < 2 ^ (- e)) by (apply Z.pow_pos_nonneg; lia); lia).
    set (a := 2 * (Z.pos m * 10 ^ Z.of_nat decimals) + 2 ^ (- e)).
    set (q := 2 * 2 ^ (- e)) in *.
    pose proof (Z.mul_div_le a q Hq). pose proof (Z.mul_succ_div_gt a q Hq). lia.
Qed.


Lemma fractional_number_is_rounded_witness :
  (6 <= 100)%nat
  /\ Number_isInteger (S754_finite false 8646911284551352 (-56)) = false
  /\ magnitudeFloor 8646911284551352 (-56) < 10 ^ 21
  /\ coerceUsdtAtomic (JNum (S754_finite false 8646911284551352 (-56)))
     = JStr (str "120000").
Proof.
  assert (H1 : Number_isInteger (S754_finite false 8646911284551352 (-56)) = false)
    by (vm_compute; reflexivity).
  assert (H2 : magnitudeFloor 8646911284551352 (-56) < 10 ^ 21)
    by (vm_compute; reflexivity).
  assert (H0 : (6 <= 100)%nat) by lia.
  split; [exact H0 | split; [exact H1 | split; [exact H2|]]].
  destruct (fractional_number_is_rounded 8646911284551352 (-56) 6 H0 H1 H2) as [E _].
  unfold coerceUsdtAtomic. rewrite E. vm_compute. reflexivity.
Defined.

(** ** A sign or a point marks display units *)

Lemma convertToken_plus_integer ip d :
  digits ip ->
  convertToken (PLUS :: ip) d = Some (BigInt_toString (BigInt ip * 10 ^ Z.of_nat d)).
Proof.
  intros Hip. unfold convertToken.
  destruct (digits_last_digit ip Hip) as (ip' & cl & Eip & Hcl).
  destruct (digits_inv ip Hip) as [Hne Hall].
  assert (Hew : endsWith DOT (PLUS :: ip) = false).
  { subst ip. change (PLUS :: ip' ++ [cl]) with ((PLUS :: ip') ++ [cl]).
    rewrite endsWith_last. clear -Hcl. code_cases. }
  cbn [isEmpty]. change (testAllDigits (PLUS :: ip)) with false.
  change (startsWith DOT (PLUS :: ip)) with false. cbv iota. rewrite Hew.
  assert (Hm : matchDecimal (PLUS :: ip) = Some ([PLUS] ++ ip, None)).
  { unfold matchDecimal. change (codeEq PLUS PLUS) with true. cbv beta iota.
    rewrite <- (app_nil_r ip) at 1.
    rewrite (spanDigits_app ip [] Hall I).
    destruct ip; [contradiction | reflexivity]. }
  rewrite Hm. change (stripLeadingPlus ([PLUS] ++ ip)) with ip.
  change (default [] None) with (@nil N). cbn [length app].
  change (d <? 0)%nat with false. cbv iota.
  rewrite (firstn_zeros d d) by lia.
  assert (isEmpty ip = false) as -> by (destruct ip; [contradiction | reflexivity]).
  assert (Hz : BigInt (if isEmpty (repeat ZERO d) then [ZERO] else repeat ZERO d) = 0).
  { destruct d; [reflexivity|]. apply (BigInt_zeros (S d)). }
  rewrite Hz, pow10BigInt_spec, Z.add_0_r.
  pose proof (BigInt_nonneg ip Hall).
  assert (0 <= BigInt ip * 10 ^ Z.of_nat d) by (apply Z.mul_nonneg_nonneg; lia).
  destruct (Z.ltb_spec (BigInt ip * 10 ^ Z.of_nat d) 0); [lia | reflexivity].
Qed.

Lemma convertToken_trailing_point sign ip d :
  (sign = [] \/ sign = [PLUS]) -> digits ip ->
  convertToken (sign ++ ip ++ [DOT]) d = convertToken (sign ++ ip ++ [DOT; ZERO]) d.
Proof.
  intros Hs Hip. unfold convertToken.
  destruct (digits_head_digit ip Hip) as (c & ip' & Eip & Hc).
  assert (Hne : forall t, isEmpty (sign ++ ip ++ t) = false).
  { intros t. destruct Hs as [-> | ->]; subst ip; reflexivity. }
  assert (Hsw : forall t, startsWith DOT (sign ++ ip ++ t) = false).
  { intros t. destruct Hs as [-> | ->]; subst ip; simpl; [|reflexivity].
    clear -Hc. code_cases. }
  rewrite !Hne, !Hsw.
  rewrite (app_assoc sign ip [DOT]), (app_assoc sign ip [DOT; ZERO]).
  rewrite !(fraction_not_digits (sign ++ ip)).
  rewrite endsWith_last. change (codeEq DOT DOT) with true.
  change ((sign ++ ip) ++ [DOT; ZERO]) with ((sign ++ ip) ++ [DOT] ++ [ZERO]).
  rewrite (app_assoc (sign ++ ip) [DOT] [ZERO]), endsWith_last.
  change (codeEq ZERO DOT) with false. reflexivity.
Qed.

Lemma convertToken_point_zero sign ip d :
  (sign = [] \/ sign = [PLUS]) -> digits ip -> (0 < d)%nat ->
  convertToken (sign ++ ip ++ [DOT; ZERO]) d
  = Some (BigInt_toString (BigInt ip * 10 ^ Z.of_nat d)).
Proof.
  intros Hs Hip Hd.
  assert (Hz : digits [ZERO]) by (apply digits_test; reflexivity).
  rewrite (convertToken_fraction sign ip [ZERO] d Hs Hip Hz).
  cbn [length]. assert ((d <? 1)%nat = false) as -> by (apply Nat.ltb_ge; lia).
  change (BigInt [ZERO]) with 0. now rewrite Z.mul_0_l, Z.add_0_r.
Qed.

Lemma signed_numeral_artifactFree sign ip t :
  (sign = [] \/ sign = [PLUS]) -> digits ip -> (t = [] \/ t = [DOT]) ->
  artifactFree (sign ++ ip ++ t).
Proof.
  intros Hs Hip Ht. apply numeral_units_artifactFree.
  destruct (digits_inv ip Hip) as [_ Hall].
  rewrite !Forall_app. repeat split.
  - destruct Hs as [-> | ->]; [constructor|].
    constructor; [|constructor]. right. right. now right.
  - apply List.Forall_forall. intros c Hc. left.
    rewrite forallb_forall in Hall. now apply Hall.
  - destruct Ht as [-> | ->]; [constructor|].
    constructor; [|constructor]. right. now left.
Qed.

(** X8. Digits alone are taken as atomic units and returned, but a
    plus sign before them or a point after them makes the same digits
    display units: the result is then the digit string of their value
    times [10^decimals]. A lone point counts as zero. *)
Theorem sign_or_point_marks_display_units (ip : jsstring) (decimals : nat) :
  digits ip -> (0 < decimals)%nat ->
  let scaled := JStr (decimalDigits (Z.to_N (BigInt ip * 10 ^ Z.of_nat decimals))) in
  decimalToAtomicString (JStr ip) decimals = JStr ip
  /\ decimalToAtomicString (JStr (PLUS :: ip)) decimals = scaled
  /\ decimalToAtomicString (JStr (ip ++ [DOT])) decimals = scaled
  /\ decimalToAtomicString (JStr (PLUS :: ip ++ [DOT])) decimals = scaled
  /\ decimalToAtomicString (JStr [DOT]) decimals = JStr [ZERO].
Proof.
  intros Hip Hd scaled. cbn [decimalToAtomicString].
  destruct (digits_inv ip Hip) as [_ Hall].
  pose proof (BigInt_nonneg ip Hall) as Hnn.
  assert (Hs : 0 <= BigInt ip * 10 ^ Z.of_nat decimals)
    by (apply Z.mul_nonneg_nonneg; lia).
  split; [now apply decimalStringToAtomic_digits|].
  split; [|split; [|split]].
  - rewrite decimalStringToAtomic_token.
    replace (PLUS :: ip) with ([PLUS] ++ ip ++ []) by now rewrite app_nil_r.
    rewrite strippedToken_artifactFree
      by (apply (signed_numeral_artifactFree [PLUS] ip []); auto).
    rewrite app_nil_r. change ([PLUS] ++ ip) with (PLUS :: ip).
    rewrite convertToken_plus_integer by exact Hip.
    now rewrite BigInt_toString_digits.
  - rewrite decimalStringToAtomic_token.
    change (ip ++ [DOT]) with ([] ++ ip ++ [DOT]).
    rewrite strippedToken_artifactFree
      by (apply (signed_numeral_artifactFree [] ip [DOT]); auto).
    rewrite convertToken_trailing_point, convertToken_point_zero by auto.
    now rewrite BigInt_toString_digits.
  - rewrite decimalStringToAtomic_token.
    change (PLUS :: ip ++ [DOT]) with ([PLUS] ++ ip ++ [DOT]).
    rewrite strippedToken_artifactFree
      by (apply (signed_numeral_artifactFree [PLUS] ip [DOT]); auto).
    rewrite convertToken_trailing_point, convertToken_point_zero by auto.
    now rewrite BigInt_toString_digits.
  - rewrite decimalStringToAtomic_token.
    assert (E : strippedToken [DOT] = [DOT]) by reflexivity. rewrite E.
    assert (E2 : convertToken [DOT] decimals
                 = convertToken ([] ++ [ZERO] ++ [DOT; ZERO]) decimals) by reflexivity.
    rewrite E2, convertToken_point_zero; auto.
    apply digits_test. reflexivity.
Qed.

Lemma sign_or_point_marks_display_units_witness :
  digits (str "5") /\ (0 < 6)%nat
  /\ coerceUsdtAtomic (JStr (str "5")) = JStr (str "5")
  /\ coerceUsdtAtomic (JStr (str "+5")) = JStr (str "5000000")
  /\ coerceUsdtAtomic (JStr (str "5.")) = JStr (str "5000000")
  /\ coerceUsdtAtomic (JStr (str ".")) = JStr (str "0").
Proof.
  assert (H1 : digits (str "5")) by (apply digits_test; vm_compute; reflexivity).
  assert (H2 : (0 < 6)%nat) by lia.
  split; [exact H1 | split; [exact H2|]].
  destruct (sign_or_point_marks_display_units (str "5") 6 H1 H2)
    as (E1 & E2 & E3 & _ & E5).
  unfold coerceUsdtAtomic. split; [|split; [|split]].
  - exact E1.
  - change (str "+5") with (PLUS :: str "5"). rewrite E2. vm_compute. reflexivity.
  - change (str "5.") with (str "5" ++ [DOT]). rewrite E3. vm_compute. reflexivity.
  - exact E5.
Defined.

(** ** [pow10BigInt] *)

(** X9. The loop of [pow10BigInt] computes the power of ten: the
    result is [10^n], positive, and the powers multiply. *)
Theorem pow10BigInt_is_power_of_ten (n k : nat) :
  pow10BigInt n = 10 ^ Z.of_nat n
  /\ 0 < pow10BigInt n
  /\ pow10BigInt (n + k) = pow10BigInt n * pow10BigInt k.
Proof.
  rewrite !pow10BigInt_spec. split; [reflexivity|]. split.
  - apply Z.pow_pos_nonneg; lia.
  - rewrite Nat2Z.inj_add. apply Z.pow_add_r; lia.
Qed.

End RepairShapeFacts.

Module SwapFacts.
Import Swap.
Local Open Scope string_scope.
Local Open Scope Z_scope.

(** ** The pre-pay verifier *)

Section PrePay.
Context `{Primitives}.





End PrePay.



(** The second scenario of the specification: an escrow funded with
    less than the terms say is refused. *)
Example underfunded_escrow_is_refused :
  let chain :=
    {| get_account := fun _ =>
         Some {| acc_owner := "escrow-program";
                 acc_data := Some {| st_status := FUNDED; st_amount := 90000000;
                                     st_mint := "mint"; st_recipient := "client";
                                     st_refund := "service"; st_payment_hash := "ab";
                                     st_refund_after_unix := 4600 |} |};
       get_token_account := get_token_account sampleChain |} in
  clientPrePay (H := samplePrimitives) chain SAFETY_MARGIN 1000
    sampleTerms sampleInvoice sampleEscrow
  = RefuseAndCancel EscrowAmountMismatch.
Proof. reflexivity. Qed.

(** ** The trade state machine *)

Section StateMachine.
Context `{Primitives}.

(** Case analysis on a run of [transition]. *)
Ltac transition_cases t e :=
  unfold transition;
  destruct (env_body e) eqn:?; destruct (state t) eqn:?;
  repeat match goal with
  | |- context [match terms ?t with Some _ => _ | None => _ end] =>
      destruct (terms t) eqn:?
  | |- context [if ?b then _ else _] => destruct b eqn:?
  end;
  try discriminate.

Lemma transition_trade_id now t e t' :
  transition now t e = Ok t' -> trade_id t' = trade_id t.
Proof. transition_cases t e; now intros [= <-]. Qed.

(** After a transition the envelope counts as replayed, except for
    [CANCEL], which is then rejected as already applied. *)
Lemma transition_then_replay now now' t e t' :
  transition now t e = Ok t' ->
  replayed t' e = true
  \/ (replayed t' e = false /\ transition now' t' e = Err AlreadyApplied).
Proof.
  transition_cases t e; intros [= <-]; unfold replayed, transition;
    repeat match goal with E : env_body e = _ |- _ => rewrite E; clear E end;
    cbn [terms_hash invoice escrow paid claim state accepted andb terminal];
    rewrite ?bool_decide_eq_true_2 by reflexivity;
    auto.
Qed.

Lemma apply_twice now now' t e t' :
  applySwapEnvelope now t e = Ok t' ->
  applySwapEnvelope now' t' e = Ok t'
  \/ applySwapEnvelope now' t' e = Err AlreadyApplied.
Proof.
  unfold applySwapEnvelope.
  destruct (signature_ok e); cbn [negb]; [|discriminate].
  destruct (schema_ok e); cbn [negb]; [|discriminate].
  destruct (bool_decide (env_trade_id e = trade_id t)) eqn:Hid; cbn [negb]; [|discriminate].
  destruct (replayed t e) eqn:Hr.
  - intros [= <-]. rewrite Hid, Hr. now left.
  - intros Ht. rewrite (transition_trade_id _ _ _ _ Ht), Hid. cbn [negb].
    destruct (transition_then_replay now now' t e t' Ht) as [-> | [-> ->]]; auto.
Qed.


(** A rejected envelope leaves the caller's trade alone, so applying it
    again at the same time changes nothing either. *)
Lemma applied_twice now t e :
  applied now (applied now t e) e = applied now t e.
Proof.
  destruct (applySwapEnvelope now t e) as [t'|r] eqn:Happ.
  - unfold applied at 2 3. rewrite Happ. unfold applied.
    destruct (apply_twice now now t e t' Happ) as [-> | ->]; reflexivity.
  - unfold applied at 2 3. rewrite Happ. unfold applied. now rewrite Happ.
Qed.

(** C2. For every trade and envelope, applying the envelope twice
    leaves the caller with the trade the first application left. When
    the first application succeeds with [t'], the second (at any later
    time) either succeeds and returns [t'] again or is rejected with
    [AlreadyApplied], and the trade is [t'] in both cases. *)
Theorem apply_is_idempotent now t e :
  applied now (applied now t e) e = applied now t e
  /\ forall now' t',
       applySwapEnvelope now t e = Ok t' ->
       (applySwapEnvelope now' t' e = Ok t'
        \/ applySwapEnvelope now' t' e = Err AlreadyApplied)
       /\ applied now' t' e = t'.
Proof.
  split; [apply applied_twice|].
  intros now' t' Happ.
  pose proof (apply_twice now now' t e t' Happ) as Htwice.
  split; [exact Htwice|].
  unfold applied. destruct Htwice as [-> | ->]; reflexivity.
Qed.

(** The third and fourth scenarios of the specification: stale terms
    are rejected and the trade stays at [INIT]; of two different TERMS
    the second is rejected and the trade reflects the first. *)
Example stale_terms_are_rejected :
  let e := sampleEnvelope (TERMS_ sampleTerms) "alice" in
  let t := createInitialTrade "t1" in
  applySwapEnvelope (H := samplePrimitives) 1301 t e = Err StaleExpiry
  /\ applied (H := samplePrimitives) 1301 t e = t.
Proof. split; reflexivity. Qed.

Example duplicate_terms_are_rejected :
  let other :=
    {| pair := pair sampleTerms; direction := direction sampleTerms;
       btc_sats := btc_sats sampleTerms; usdt_amount := usdt_amount sampleTerms;
       usdt_decimals := usdt_decimals sampleTerms;
       sol_mint := sol_mint sampleTerms; sol_recipient := "mallory";
       sol_refund := sol_refund sampleTerms;
       sol_refund_after_unix := sol_refund_after_unix sampleTerms;
       ln_receiver_peer := ln_receiver_peer sampleTerms;
       ln_payer_peer := ln_payer_peer sampleTerms;
       terms_valid_until_unix := terms_valid_until_unix sampleTerms |} in
  let t := applied (H := samplePrimitives) 1000 (createInitialTrade "t1")
             (sampleEnvelope (TERMS_ sampleTerms) "alice") in
  applySwapEnvelope (H := samplePrimitives) 1000 t
    (sampleEnvelope (TERMS_ other) "alice") = Err DuplicateTerms
  /\ terms t = Some sampleTerms.
Proof. split; reflexivity. Qed.

(** *** The binding closure *)






End StateMachine.

Lemma apply_is_idempotent_witness :
  let P := samplePrimitives in
  let e := sampleEnvelope (TERMS_ sampleTerms) "alice" in
  let t := createInitialTrade "t1" in
  let t' := applied 1000 t e in
  applySwapEnvelope 1000 t e = Ok t'
  /\ state t' = TERMS
  /\ applySwapEnvelope 2000 t' e = Ok t'.
Proof.
  intros P e t t'.
  assert (Happ : applySwapEnvelope 1000 t e = Ok t') by reflexivity.
  split; [exact Happ|]. split; [reflexivity|].
  destruct (proj1 (proj2 (apply_is_idempotent 1000 t e) 2000 t' Happ))
    as [Hok | Herr].
  - exact Hok.
  - discriminate Herr.
Defined.





End SwapFacts.

(* --------------------------------------------------------------------- *)
(** ** The helpers of the end-to-end test                                 *)
(* --------------------------------------------------------------------- *)

Module HarnessFacts.
Import JS Repair Harness RepairFacts.

(** ** The output tail *)

Lemma sliceLast_length n (s : jsstring) : length (sliceLast n s) = Nat.min n (length s).
Proof. unfold sliceLast. rewrite length_skipn. lia. Qed.

Lemma sliceLast_short n (s : jsstring) : (length s <= n)%nat -> sliceLast n s = s.
Proof.
  intros H. unfold sliceLast. now replace (length s - n)%nat with 0%nat by lia.
Qed.

Lemma sliceLast_app n (a b : jsstring) :
  sliceLast n (sliceLast n a ++ b) = sliceLast n (a ++ b).
Proof.
  destruct (Nat.le_gt_cases (length a) n) as [H | H].
  - now rewrite (sliceLast_short n a H).
  - unfold sliceLast at 1 3. rewrite !length_app, sliceLast_length, !skipn_app.
    rewrite sliceLast_length. unfold sliceLast. rewrite skipn_skipn.
    replace (Nat.min n (length a)) with n by lia.
    f_equal; f_equal; lia.
Qed.

Lemma append_sliceLast out chunk : append out chunk = sliceLast tailLimit (out ++ chunk).
Proof.
  unfold append. destruct (tailLimit <? length (out ++ chunk))%nat eqn:E; [reflexivity|].
  apply Nat.ltb_ge in E. now rewrite sliceLast_short.
Qed.

Lemma appendAll_sliceLast out chunks :
  appendAll (sliceLast tailLimit out) chunks
  = sliceLast tailLimit (out ++ concat chunks).
Proof.
  revert out. induction chunks as [|c cs IH]; intros out.
  - cbn [concat]. now rewrite app_nil_r.
  - cbn [appendAll fold_left concat]. fold (appendAll (append (sliceLast tailLimit out) c) cs).
    rewrite append_sliceLast, sliceLast_app, IH. now rewrite <- app_assoc.
Qed.

(** X10. The output kept for a spawned process is the tail of what it
    wrote: after any sequence of chunks, [out] holds the last 20000
    code units of their concatenation (all of it when it is shorter),
    whatever the sizes of the chunks; nothing is reordered and
    nothing but a prefix is dropped. *)
Theorem output_tail_is_kept (chunks : list jsstring) :
  appendAll [] chunks = sliceLast tailLimit (concat chunks)
  /\ length (appendAll [] chunks) = Nat.min tailLimit (length (concat chunks))
  /\ exists dropped, concat chunks = dropped ++ appendAll [] chunks.
Proof.
  assert (E : appendAll [] chunks = sliceLast tailLimit (concat chunks))
    by apply (appendAll_sliceLast [] chunks).
  rewrite E. split; [reflexivity|]. split; [apply sliceLast_length|].
  exists (firstn (length (concat chunks) - tailLimit) (concat chunks)).
  unfold sliceLast. now rewrite firstn_skipn.
Qed.

(** X11. One step of the tail: the result never exceeds 20000 code
    units, whatever was held before, and always ends with as much of
    the new chunk as fits. *)
Theorem append_is_bounded (out chunk : jsstring) :
  (length (append out chunk) <= tailLimit)%nat
  /\ append out chunk = sliceLast tailLimit (out ++ chunk)
  /\ exists kept, append out chunk = kept ++ sliceLast tailLimit chunk.
Proof.
  rewrite append_sliceLast. split; [rewrite sliceLast_length; lia|].
  split; [reflexivity|].
  unfold sliceLast. rewrite length_app, skipn_app.
  exists (skipn (length out + length chunk - tailLimit) out
          ++ firstn (length chunk - tailLimit - (length out + length chunk - tailLimit - length out))
               (skipn (length out + length chunk - tailLimit - length out) chunk)).
  rewrite <- app_assoc. f_equal.
  rewrite <- (firstn_skipn (length chunk - tailLimit
                            - (length out + length chunk - tailLimit - length out))
                (skipn (length out + length chunk - tailLimit - length out) chunk)) at 1.
  f_equal. rewrite skipn_skipn. f_equal. lia.
Qed.

(** ** [parseHex32] *)

Lemma isLowerHex_toLowerCaseUnit c :
  isLowerHex (toLowerCaseUnit c) = true <-> isHexDigit c.
Proof.
  unfold isLowerHex, toLowerCaseUnit, isHexDigit, isDigit.
  destruct (N.leb_spec 65 c), (N.leb_spec c 90); cbn [andb];
    rewrite orb_true_iff, !andb_true_iff, !N.leb_le; lia.
Qed.

Lemma isLowerHex_fixed c : isLowerHex c = true -> toLowerCaseUnit c = c.
Proof.
  unfold isLowerHex, toLowerCaseUnit, isDigit.
  rewrite orb_true_iff, !andb_true_iff, !N.leb_le. intros H.
  destruct (N.leb_spec 65 c), (N.leb_spec c 90); cbn [andb]; try reflexivity. lia.
Qed.

Lemma isLowerHex_not_white c : isLowerHex c = true -> isWhiteSpace c = false.
Proof.
  unfold isLowerHex, isDigit.
  rewrite orb_true_iff, !andb_true_iff, !N.leb_le. intros H.
  destruct (isWhiteSpace c) eqn:E; [|reflexivity].
  apply isWhiteSpace_range in E. lia.
Qed.

Lemma forallb_isLowerHex_toLowerCase s :
  forallb isLowerHex (toLowerCase s) = true <-> Forall isHexDigit s.
Proof.
  induction s as [|c s IH]; cbn [toLowerCase map forallb].
  - split; [constructor | reflexivity].
  - fold (toLowerCase s). rewrite andb_true_iff, isLowerHex_toLowerCaseUnit, IH.
    split; [intros [? ?]; now constructor | intros H; inversion H; auto].
Qed.

Lemma matchHex64_toLowerCase s :
  matchHex64 (toLowerCase s) = true <-> length s = 64%nat /\ Forall isHexDigit s.
Proof.
  unfold matchHex64. rewrite andb_true_iff, forallb_isLowerHex_toLowerCase.
  unfold toLowerCase at 1. rewrite length_map, Nat.eqb_eq. reflexivity.
Qed.

Lemma matchHex64_fixed hex :
  matchHex64 hex = true -> toLowerCase (trim hex) = hex.
Proof.
  unfold matchHex64. rewrite andb_true_iff. intros [_ H].
  rewrite forallb_forall in H.
  rewrite trim_noWhite.
  - unfold toLowerCase. rewrite <- (map_id hex) at 2. apply map_ext_in.
    intros c Hc. now apply isLowerHex_fixed, H.
  - apply List.Forall_forall. intros c Hc. now apply isLowerHex_not_white, H.
Qed.

(** X12. [parseHex32] returns exactly when the trimmed value is 64
    hexadecimal digits of either case, and then returns them in lower
    case; in every other case it throws, with the message made of
    the label. A returned value is 64 lower-case hexadecimal digits
    and parses to itself. *)
Theorem parseHex32_accepts_32_bytes (value label : jsstring) :
  (length (trim value) = 64%nat /\ Forall isHexDigit (trim value) ->
     parseHex32 value label = Return (toLowerCase (trim value)))
  /\ (~ (length (trim value) = 64%nat /\ Forall isHexDigit (trim value)) ->
        parseHex32 value label = Throw (label ++ str " must be 32-byte hex"))
  /\ (forall hex, parseHex32 value label = Return hex ->
        length hex = 64%nat
        /\ Forall (fun c => (48 <= c <= 57 \/ 97 <= c <= 102)%N) hex
        /\ forall label', parseHex32 hex label' = Return hex).
Proof.
  unfold parseHex32. cbv zeta.
  pose proof (matchHex64_toLowerCase (trim value)) as Hm.
  destruct (matchHex64 (toLowerCase (trim value))) eqn:E.
  - split; [reflexivity|]. split; [intros Hn; exfalso; apply Hn, Hm; reflexivity|].
    intros hex [= <-]. split; [|split].
    + unfold toLowerCase. rewrite length_map. now apply Hm.
    + unfold matchHex64 in E. apply andb_true_iff in E as [_ E].
      rewrite forallb_forall in E. apply List.Forall_forall. intros c Hc.
      specialize (E c Hc). unfold isLowerHex, isDigit in E.
      rewrite orb_true_iff, !andb_true_iff, !N.leb_le in E. lia.
    + intros label'. rewrite (matchHex64_fixed _ E). now rewrite E.
  - split; [intros H; apply Hm in H; discriminate|]. split; [reflexivity|].
    intros hex [=].
Qed.

(** ** [retry] *)

Section RetryFacts.
Context {World Error Value : Type}.
Variable sleep : Z -> World -> World.
Variable errorText : Error -> jsstring.
Variable fn : World -> outcome Error Value * World.
Variable delayMs : Z.

Lemma retryLoop_resolves k : forall remaining lastErr w a w',
  (k < remaining)%nat ->
  (forall j, (j < k)%nat -> exists err, rejectedAt sleep fn delayMs w j err) ->
  fn (worldAtRound sleep fn delayMs k w) = (Resolved a, w') ->
  retryLoop sleep fn delayMs remaining lastErr w = (Resolved a, w').
Proof.
  induction k as [|k IH]; intros remaining lastErr w a w' Hk Hrej Hres;
    (destruct remaining as [|remaining]; [lia|]); cbn [retryLoop].
  - cbn [worldAtRound] in Hres. now rewrite Hres.
  - destruct (Hrej 0%nat ltac:(lia)) as [err Herr].
    unfold rejectedAt in Herr. cbn [worldAtRound] in Herr, Hres.
    destruct (fn w) as [[a0 | err0] w0] eqn:E; cbn [fst] in Herr; [discriminate|].
    cbn [snd] in Hres. apply IH; [lia | | exact Hres].
    intros j Hj. destruct (Hrej (S j) ltac:(lia)) as [e He]. exists e.
    unfold rejectedAt in He |- *. cbn [worldAtRound] in He.
    rewrite E in He. exact He.
Qed.

Lemma retryLoop_rejects remaining : forall lastErr w,
  (forall j, (j < remaining)%nat -> exists err, rejectedAt sleep fn delayMs w j err) ->
  exists last,
    retryLoop sleep fn delayMs remaining lastErr w
    = (Rejected last, worldAtRound sleep fn delayMs remaining w)
    /\ match remaining with
       | O => last = lastErr
       | S n => exists err, last = Some err /\ rejectedAt sleep fn delayMs w n err
       end.
Proof.
  induction remaining as [|n IH]; intros lastErr w Hrej; cbn [retryLoop worldAtRound].
  - eauto.
  - destruct (Hrej 0%nat ltac:(lia)) as [err Herr].
    pose proof Herr as Herr0. unfold rejectedAt in Herr. cbn [worldAtRound] in Herr.
    destruct (fn w) as [[a0 | err0] w0] eqn:E; cbn [fst] in Herr; [discriminate|].
    injection Herr as ->. cbn [snd].
    destruct (IH (Some err) (sleep delayMs w0)) as (last & Eq & Hlast).
    { intros j Hj. destruct (Hrej (S j) ltac:(lia)) as [e He]. exists e.
      unfold rejectedAt in He |- *. cbn [worldAtRound] in He.
      rewrite E in He. exact He. }
    exists last. split; [exact Eq|].
    destruct n as [|n'].
    + subst last. eauto.
    + destruct Hlast as (e & -> & He). exists e. split; [reflexivity|].
      unfold rejectedAt in He |- *. cbn [worldAtRound]. rewrite E. exact He.
Qed.

(** X13. [retry] returns the value of the first call that resolves:
    when the calls of rounds [0] to [k - 1] are rejected and the call
    of round [k < tries] resolves, the result is that value, and the
    world is the one that call left: [fn] has run [k + 1] times with
    the delay after each rejected call, and no more. *)
Theorem retry_returns_first_success (tries : nat) (label : jsstring) (w : World)
    (k : nat) (a : Value) (w' : World) :
  (k < tries)%nat ->
  (forall j, (j < k)%nat -> exists err, rejectedAt sleep fn delayMs w j err) ->
  fn (worldAtRound sleep fn delayMs k w) = (Resolved a, w') ->
  retry sleep errorText fn tries delayMs label w = (Resolved a, w').
Proof.
  intros Hk Hrej Hres. unfold retry.
  now rewrite (retryLoop_resolves k tries None w a w' Hk Hrej Hres).
Qed.

(** X14. [retry] gives up after [tries] rejected calls, not before
    and not later: the error thrown names the label, the number of
    tries and the text of the last error, the delay has been waited
    after every call, the last one included, and with [tries = 0]
    the function is not called at all and the message ends in
    [null]. *)
Theorem retry_gives_up_after_tries (tries : nat) (label : jsstring) (w : World) :
  (forall j, (j < tries)%nat -> exists err, rejectedAt sleep fn delayMs w j err) ->
  exists last,
    retry sleep errorText fn tries delayMs label w
    = (Rejected (label ++ str " failed after " ++ decimalDigits (N.of_nat tries)
                   ++ str " tries: " ++ last),
       worldAtRound sleep fn delayMs tries w)
    /\ match tries with
       | O => last = str "null"
       | S n => exists err, last = errorText err
                            /\ rejectedAt sleep fn delayMs w n err
       end.
Proof.
  intros Hrej. unfold retry.
  destruct (retryLoop_rejects tries None w Hrej) as (last & -> & Hlast).
  unfold retryMessage. destruct tries as [|n].
  - subst last. eauto.
  - destruct Hlast as (err & -> & Herr). eauto.
Qed.

End RetryFacts.

Lemma retry_returns_first_success_witness :
  retry sampleSleep id (sampleProbe 1000) 80 500 (str "solana rpc ready") 0
  = (Resolved 1000, 1000).
Proof.
  apply (retry_returns_first_success sampleSleep id (sampleProbe 1000) 500
           80 (str "solana rpc ready") 0 2 1000 1000).
  - lia.
  - intros j Hj. exists (str "not ready").
    destruct j as [|[|j]]; [reflexivity | reflexivity | lia].
  - reflexivity.
Defined.

Lemma retry_gives_up_after_tries_witness :
  exists last,
    retry sampleSleep id (sampleProbe 1000) 2 500 (str "solana rpc ready") 0
    = (Rejected (str "solana rpc ready failed after 2 tries: " ++ last), 1000)
    /\ last = str "not ready".
Proof.
  destruct (retry_gives_up_after_tries sampleSleep id (sampleProbe 1000) 500
              2 (str "solana rpc ready") 0) as (last & E & err & -> & Herr).
  { intros j Hj. exists (str "not ready").
    destruct j as [|[|j]]; [reflexivity | reflexivity | lia]. }
  assert (Herr' : err = str "not ready").
  { unfold rejectedAt in Herr. vm_compute in Herr. now injection Herr as <-. }
  subst err. exists (str "not ready"). split; [|reflexivity].
  rewrite E. vm_compute. reflexivity.
Defined.

End HarnessFacts.
